(** * ALX Polly: poll and vote actions over a relational store

    A shallow embedding of the server actions of
    [app/lib/actions/auth-actions.ts] (poll creation, retrieval, update,
    soft deletion, vote submission and vote tallying), together with the
    part of the Supabase query interface they use, and the properties of
    these actions; further down, the authentication context of
    [app/lib/context/auth-context.tsx] and the input helpers of
    [lib/utils.ts].

    Conventions of the embedding:
    - a JavaScript string is the list of its UTF-16 code units;
    - a table is the list of its rows in insertion order;
    - a store reply is the pair [{ data, error }] the client library
      answers with;
    - every action takes the ambient request environment (the session of
      the identity provider, the outcome of the store write of this
      request, the store clock) and the store, and returns its result
      together with the store it leaves behind. *)

From stdpp Require Import base numbers list strings pretty infinite sorting.

Set Default Proof Using "Type".
Open Scope Z_scope.

(** ** JavaScript strings *)

(** A string value: the sequence of its UTF-16 code units. *)
Abbreviation jsstring := (list N).

(** An ASCII literal as a JavaScript string. *)
Definition js (s : string) : jsstring :=
  Ascii.N_of_ascii <$> String.list_ascii_of_string s.

(** [WhiteSpace] and [LineTerminator] code points of ECMAScript, the
    characters [String.prototype.trim] strips. *)
Definition is_ws (c : N) : bool :=
  ((9 <=? c) && (c <=? 13) || (c =? 32) || (c =? 160) || (c =? 5760)
   || (8192 <=? c) && (c <=? 8202) || (c =? 8232) || (c =? 8233)
   || (c =? 8239) || (c =? 8287) || (c =? 12288) || (c =? 65279))%N.

Fixpoint trimStart (s : jsstring) : jsstring :=
  match s with
  | c :: s' => if is_ws c then trimStart s' else s
  | [] => []
  end.

Definition trimEnd (s : jsstring) : jsstring := reverse (trimStart (reverse s)).

(** [s.trim()] *)
Definition trim (s : jsstring) : jsstring := trimEnd (trimStart s).

(** [[...new Set(xs)]]: a [Set] keeps the first occurrence of every value,
    in insertion order. [seen] is the content of the set so far. *)
Fixpoint set_add_all (seen : list jsstring) (xs : list jsstring) : list jsstring :=
  match xs with
  | [] => seen
  | x :: xs' =>
      if bool_decide (x ∈ seen) then set_add_all seen xs'
      else set_add_all (seen ++ [x]) xs'
  end.

Definition new_Set (xs : list jsstring) : list jsstring := set_add_all [] xs.

(** ** Data model *)

(** Identifiers are UUID strings. *)
Abbreviation PollId := string (only parsing).
Abbreviation UserId := string (only parsing).

(** A row of table [polls], with the columns the actions read or write. *)
Record Poll := mkPoll {
  poll_id : PollId;
  created_by : UserId;
  title : jsstring;
  options : list jsstring;
  is_active : bool;
  created_at : nat
}.

(** A row of table [votes], with the columns the actions read or write. *)
Record Vote := mkVote {
  vote_poll_id : PollId;
  vote_user_id : option UserId;
  option_index : Z
}.

Record Store := mkStore {
  polls : list Poll;
  votes : list Vote
}.

Definition empty_store : Store := {| polls := []; votes := [] |}.

Global Instance Poll_eq_dec : EqDecision Poll.
Proof. solve_decision. Defined.

Global Instance Vote_eq_dec : EqDecision Vote.
Proof. solve_decision. Defined.

(** The request environment: what [supabase.auth.getUser()] answers, the
    error (if any) with which the store answers the insert or update of
    this request, and the store's [NOW()]. *)
Record Env := mkEnv {
  user : option UserId;
  userError : option string;
  storeError : option string;
  now : nat
}.

(** The [FormData] of the poll form: [formData.get("question")] and
    [formData.getAll("options")]. *)
Record FormData := mkFormData {
  fd_question : option jsstring;
  fd_options : list jsstring
}.

(** The error strings the actions return. *)
Inductive Error :=
  | QuestionRequired
  | QuestionTooLong
  | TooFewOptions
  | TooManyOptions
  | OptionEmpty (n : nat)
  | OptionTooLong (n : nat)
  | DuplicateOptions
  | LoginRequiredCreate
  | LoginRequiredUpdate
  | NotAuthenticated
  | AuthenticationRequired
  | PollNotFound
  | UnauthorizedDelete
  | UnauthorizedUpdate
  | InvalidOption
  | AlreadyVoted
  | AuthMessage (msg : string)
  | StoreMessage (msg : string).

Definition message (e : Error) : string :=
  match e with
  | QuestionRequired => "Question is required."
  | QuestionTooLong => "Question is too long. Maximum 500 characters allowed."
  | TooFewOptions => "Please provide at least two options."
  | TooManyOptions => "Too many options. Maximum 10 options allowed."
  | OptionEmpty n => "Option " +:+ pretty n +:+ " cannot be empty."
  | OptionTooLong n =>
      "Option " +:+ pretty n +:+ " is too long. Maximum 200 characters allowed."
  | DuplicateOptions => "Duplicate options are not allowed."
  | LoginRequiredCreate => "You must be logged in to create a poll."
  | LoginRequiredUpdate => "You must be logged in to update a poll."
  | NotAuthenticated => "Not authenticated"
  | AuthenticationRequired => "Authentication required"
  | PollNotFound => "Poll not found"
  | UnauthorizedDelete => "Unauthorized: You can only delete your own polls"
  | UnauthorizedUpdate => "Unauthorized: You can only update your own polls"
  | InvalidOption => "Invalid option selected"
  | AlreadyVoted => "You have already voted on this poll"
  | AuthMessage msg => msg
  | StoreMessage msg => msg
  end.

(** The error kinds of the specification. *)
Inductive ErrorKind :=
  | Unauthenticated
  | Unauthorized
  | NotFound
  | InvalidInput
  | DuplicateVote
  | StoreFailure.

Definition kind (e : Error) : ErrorKind :=
  match e with
  | QuestionRequired | QuestionTooLong | TooFewOptions | TooManyOptions
  | OptionEmpty _ | OptionTooLong _ | DuplicateOptions | InvalidOption => InvalidInput
  | LoginRequiredCreate | LoginRequiredUpdate | NotAuthenticated
  | AuthenticationRequired | AuthMessage _ => Unauthenticated
  | PollNotFound => NotFound
  | UnauthorizedDelete | UnauthorizedUpdate => Unauthorized
  | AlreadyVoted => DuplicateVote
  | StoreMessage _ => StoreFailure
  end.

(** ** The store's query interface *)

(** A reply of the store client: [{ data, error }]. *)
Record Reply (A : Type) := mkReply {
  data : option A;
  error : option string
}.
Arguments mkReply {A} _ _.
Arguments data {A} _.
Arguments error {A} _.

(** The message of the store when [.single()] does not find exactly one row. *)
Definition single_row_message : string :=
  "JSON object requested, multiple (or no) rows returned".

(** [.single()]: the only row of the selection, an error if there is none
    or more than one. *)
Definition single {A} (rows : list A) : Reply A :=
  match rows with
  | [r] => mkReply (Some r) None
  | _ => mkReply None (Some single_row_message)
  end.

(** [gen_random_uuid()]: an identifier no row of the table carries. *)
Definition gen_random_uuid (rows : list Poll) : PollId :=
  fresh (poll_id <$> rows).

(** [from("polls").insert([{ created_by, title, options, is_active }])]:
    the store supplies [id] and [created_at]. *)
Definition insert_poll (env : Env) (owner : UserId) (t : jsstring)
    (opts : list jsstring) (active : bool) (db : Store) : Store :=
  {| polls := polls db ++
       [mkPoll (gen_random_uuid (polls db)) owner t opts active (now env)];
     votes := votes db |}.

(** [from("polls").update(change).eq("id", id).eq("created_by", owner)] *)
Definition update_polls (change : Poll → Poll) (id : PollId) (owner : UserId)
    (db : Store) : Store :=
  {| polls := (λ p, if decide (poll_id p = id ∧ created_by p = owner)
                    then change p else p) <$> polls db;
     votes := votes db |}.

(** [from("votes").insert([{ poll_id, user_id, option_index }])] *)
Definition insert_vote (v : Vote) (db : Store) : Store :=
  {| polls := polls db; votes := votes db ++ [v] |}.

(** A write of this request: refused with the environment's store error, in
    which case the store is left as it is, or applied. *)
Definition write (env : Env) (apply : Store → Store) (db : Store)
    : option string * Store :=
  match storeError env with
  | Some msg => (Some msg, db)
  | None => (None, apply db)
  end.

(** [.order("created_at", { ascending: false })], by insertion. *)
Fixpoint insert_newest_first (p : Poll) (l : list Poll) : list Poll :=
  match l with
  | [] => [p]
  | q :: l' =>
      if (created_at q <? created_at p)%nat then p :: q :: l'
      else q :: insert_newest_first p l'
  end.

Definition order_created_at_desc (l : list Poll) : list Poll :=
  foldr insert_newest_first [] l.

(** A selection without [.single()]: the matching rows. *)
Definition select_rows {A} (rows : list A) : Reply (list A) :=
  mkReply (Some rows) None.

(** ** Input validation of the poll form

    The block below opens both [createPoll] and [updatePoll] (in either
    copy of the module), statement for statement. *)

(** The loop over the options: the first option that is empty after
    trimming or longer than 200 code units decides; [i] is the loop index. *)
Fixpoint check_options (i : nat) (opts : list jsstring) : option Error :=
  match opts with
  | [] => None
  | o :: opts' =>
      let option := trim o in
      if bool_decide (option = []) || (length option =? 0)%nat
      then Some (OptionEmpty (i + 1))
      else if (200 <? length option)%nat then Some (OptionTooLong (i + 1))
      else check_options (S i) opts'
  end.

(** [formData.getAll("options").filter(Boolean)]: the empty string is the
    only falsy string. *)
Definition filter_Boolean (raw : list jsstring) : list jsstring :=
  filter (λ s, s ≠ []) raw.

(** On success: the question and [uniqueOptions]. *)
Definition validate (formData : FormData) : Error + (jsstring * list jsstring) :=
  let options := filter_Boolean (fd_options formData) in
  match fd_question formData with
  | None => inl QuestionRequired
  | Some question =>
      if bool_decide (question = []) || (length (trim question) =? 0)%nat
      then inl QuestionRequired
      else if (500 <? length question)%nat then inl QuestionTooLong
      else if (length options <? 2)%nat then inl TooFewOptions
      else if (10 <? length options)%nat then inl TooManyOptions
      else match check_options 0 options with
           | Some e => inl e
           | None =>
               let uniqueOptions := new_Set (trim <$> options) in
               if negb (length uniqueOptions =? length options)%nat
               then inl DuplicateOptions
               else inr (question, uniqueOptions)
           end
  end.

(** ** The actions *)

(** The result [{ error }] of an action that writes, with the store it
    leaves. *)
Definition Outcome : Type := option Error * Store.

Record PollsResult := mkPollsResult {
  res_polls : list Poll;
  res_polls_error : option Error
}.

Record PollResult := mkPollResult {
  res_poll : option Poll;
  res_poll_error : option Error
}.

Record VoteCounts := mkVoteCounts {
  voteCounts : list nat;
  totalVotes : nat;
  res_counts_error : option Error
}.

Definition createPoll (env : Env) (db : Store) (formData : FormData) : Outcome :=
  match validate formData with
  | inl e => (Some e, db)
  | inr (question, uniqueOptions) =>
      match userError env with
      | Some msg => (Some (AuthMessage msg), db)
      | None =>
          match user env with
          | None => (Some LoginRequiredCreate, db)
          | Some uid =>
              match write env (insert_poll env uid (trim question) uniqueOptions true) db with
              | (Some msg, db') => (Some (StoreMessage msg), db')
              | (None, db') => (None, db')
              end
          end
      end
  end.

Definition getUserPolls (env : Env) (db : Store) : PollsResult :=
  match user env with
  | None => mkPollsResult [] (Some NotAuthenticated)
  | Some uid =>
      let reply :=
        select_rows
          (order_created_at_desc
             (filter (λ p, is_active p = true)
                (filter (λ p, created_by p = uid) (polls db)))) in
      match error reply with
      | Some msg => mkPollsResult [] (Some (StoreMessage msg))
      | None => mkPollsResult (default [] (data reply)) None
      end
  end.

Definition getPollById (db : Store) (id : PollId) : PollResult :=
  let reply :=
    single (filter (λ p, is_active p = true)
              (filter (λ p, poll_id p = id) (polls db))) in
  match error reply with
  | Some msg => mkPollResult None (Some (StoreMessage msg))
  | None => mkPollResult (data reply) None
  end.

(** [optionIndex] ranges over the integers, the values of the [INTEGER]
    column it is stored in. *)
Definition submitVote (env : Env) (db : Store) (pollId : PollId)
    (optionIndex : Z) : Outcome :=
  let poll_reply :=
    single (options <$> filter (λ p, poll_id p = pollId) (polls db)) in
  match error poll_reply, data poll_reply with
  | None, Some poll_options =>
      if (optionIndex <? 0) || (Z.of_nat (length poll_options) <=? optionIndex)
      then (Some InvalidOption, db)
      else
        let existingVote :=
          match user env with
          | Some uid =>
              data (single (filter (λ v, vote_user_id v = Some uid)
                              (filter (λ v, vote_poll_id v = pollId) (votes db))))
          | None => None
          end in
        match existingVote with
        | Some _ => (Some AlreadyVoted, db)
        | None =>
            match write env (insert_vote (mkVote pollId (user env) optionIndex)) db with
            | (Some msg, db') => (Some (StoreMessage msg), db')
            | (None, db') => (None, db')
            end
        end
  | _, _ => (Some PollNotFound, db)
  end.

Definition deactivate (p : Poll) : Poll :=
  mkPoll (poll_id p) (created_by p) (title p) (options p) false (created_at p).

Definition deletePoll (env : Env) (db : Store) (id : PollId) : Outcome :=
  match userError env, user env with
  | None, Some uid =>
      let poll_reply :=
        single (created_by <$>
                  filter (λ p, is_active p = true)
                    (filter (λ p, poll_id p = id) (polls db))) in
      match error poll_reply, data poll_reply with
      | None, Some owner =>
          if decide (owner ≠ uid) then (Some UnauthorizedDelete, db)
          else
            match write env (update_polls deactivate id uid) db with
            | (Some msg, db') => (Some (StoreMessage msg), db')
            | (None, db') => (None, db')
            end
      | _, _ => (Some PollNotFound, db)
      end
  | _, _ => (Some AuthenticationRequired, db)
  end.

Definition retitle (t : jsstring) (opts : list jsstring) (p : Poll) : Poll :=
  mkPoll (poll_id p) (created_by p) t opts (is_active p) (created_at p).

(** What the two copies of [updatePoll] share: everything up to the store
    update; [finish] is the copy's treatment of the update's error. *)
Definition updatePoll_with (finish : option string → option Error)
    (env : Env) (db : Store) (pollId : PollId) (formData : FormData) : Outcome :=
  match validate formData with
  | inl e => (Some e, db)
  | inr (question, uniqueOptions) =>
      match userError env with
      | Some msg => (Some (AuthMessage msg), db)
      | None =>
          match user env with
          | None => (Some LoginRequiredUpdate, db)
          | Some uid =>
              let poll_reply :=
                single (created_by <$>
                          filter (λ p, is_active p = true)
                            (filter (λ p, poll_id p = pollId) (polls db))) in
              match error poll_reply, data poll_reply with
              | None, Some owner =>
                  if decide (owner ≠ uid) then (Some UnauthorizedUpdate, db)
                  else
                    let '(err, db') :=
                      write env
                        (update_polls (retitle (trim question) uniqueOptions) pollId uid)
                        db in
                    (finish err, db')
              | _, _ => (Some PollNotFound, db)
              end
          end
      end
  end.

(** The first, documented copy: the update's [error] is bound and the
    function ends in [return { error: null }]. *)
Definition updatePoll : Env → Store → PollId → FormData → Outcome :=
  updatePoll_with (λ _, None).

(** The second copy of the module differs from the first in [updatePoll]
    only, which ends in [if (error) return { error: error.message }]. *)
Module SecondCopy.

Definition updatePoll : Env → Store → PollId → FormData → Outcome :=
  updatePoll_with (λ err, StoreMessage <$> err).

End SecondCopy.

(** The reducer of [getVoteCounts]: [counts] is the accumulator. *)
Definition count_vote (counts : list nat) (vote : Vote) : list nat :=
  let index := option_index vote in
  if (0 <=? index) && (index <? Z.of_nat (length counts))
  then <[Z.to_nat index := (default 0 (counts !! Z.to_nat index) + 1)%nat]> counts
  else counts.

Definition getVoteCounts (db : Store) (pollId : PollId) : VoteCounts :=
  let reply := select_rows (filter (λ v, vote_poll_id v = pollId) (votes db)) in
  match error reply with
  | Some msg => mkVoteCounts [] 0 (Some (StoreMessage msg))
  | None =>
      let votes := default [] (data reply) in
      mkVoteCounts (foldl count_vote [] votes) (length votes) None
  end.

(** ** Sequential histories *)

Inductive Call :=
  | CreatePoll (formData : FormData)
  | UpdatePoll (pollId : PollId) (formData : FormData)
  | UpdatePoll2 (pollId : PollId) (formData : FormData)
  | DeletePoll (id : PollId)
  | SubmitVote (pollId : PollId) (optionIndex : Z).

Definition perform (env : Env) (c : Call) (db : Store) : Outcome :=
  match c with
  | CreatePoll formData => createPoll env db formData
  | UpdatePoll pollId formData => updatePoll env db pollId formData
  | UpdatePoll2 pollId formData => SecondCopy.updatePoll env db pollId formData
  | DeletePoll id => deletePoll env db id
  | SubmitVote pollId optionIndex => submitVote env db pollId optionIndex
  end.

(** The store after the calls of [history], one after the other. *)
Definition run (history : list (Env * Call)) (db : Store) : Store :=
  foldl (λ db ec, (perform ec.1 ec.2 db).2) db history.

(** ** The specification's words *)

(** The rejection conditions of the specification, for a question and a
    list of options: the question is missing, blank or longer than 500 code
    units; there are fewer than 2 or more than 10 options; some option is
    blank or longer than 200 code units after trimming; two options agree
    after trimming. *)
Definition rejected (question : option jsstring) (opts : list jsstring) : Prop :=
  (question = None ∨ ∃ t, question = Some t ∧ (trim t = [] ∨ 500 < length t)%nat)
  ∨ (length opts < 2)%nat
  ∨ (10 < length opts)%nat
  ∨ (∃ o, o ∈ opts ∧ (trim o = [] ∨ 200 < length (trim o))%nat)
  ∨ ¬ NoDup (trim <$> opts).

(** A valid input of the specification. *)
Definition valid_input (t : jsstring) (opts : list jsstring) : Prop :=
  trim t ≠ [] ∧ (length t ≤ 500)%nat
  ∧ (2 ≤ length opts ≤ 10)%nat
  ∧ (∀ o, o ∈ opts → trim o ≠ [] ∧ (length (trim o) ≤ 200)%nat)
  ∧ NoDup (trim <$> opts).

(** The action [a] fails with an error of kind [k]. *)
Definition fails_with (k : ErrorKind) (out : Outcome) : Prop :=
  ∃ e, out.1 = Some e ∧ kind e = k.

(** The votes of user [u] on poll [p]: the selection of the duplicate check. *)
Definition votes_of (db : Store) (p : PollId) (u : UserId) : list Vote :=
  filter (λ v, vote_user_id v = Some u)
    (filter (λ v, vote_poll_id v = p) (votes db)).

(** The primary key of table [polls]. *)
Definition polls_pkey (db : Store) : Prop := NoDup (poll_id <$> polls db).

(** What sequential histories maintain: the primary key of [polls], votes
    refer to stored polls, and a user has at most one vote on a poll. *)
Definition store_ok (db : Store) : Prop :=
  polls_pkey db
  ∧ (∀ v, v ∈ votes db → vote_poll_id v ∈ poll_id <$> polls db)
  ∧ (∀ p u, (length (votes_of db p u) ≤ 1)%nat).

(** ** Example stores *)

Definition alice : Env := mkEnv (Some "alice") None None 1%nat.
Definition bob : Env := mkEnv (Some "bob") None None 2%nat.
Definition anonymous : Env := mkEnv None None None 3%nat.

Definition pick_one : FormData := mkFormData (Some (js "Pick one")) [js "A"; js "B"].

(** The poll alice creates from [pick_one] on the empty store, and the
    store it leaves. *)
Definition the_poll : Poll :=
  mkPoll "0" "alice" (js "Pick one") [js "A"; js "B"] true 1.

Definition one_poll : Store := {| polls := [the_poll]; votes := [] |}.

(** The same poll after its soft deletion. *)
Definition deleted_poll : Store :=
  {| polls := [mkPoll "0" "alice" (js "Pick one") [js "A"; js "B"] false 1];
     votes := [] |}.

(** Alice creates the poll and votes for its first option. *)
Definition alice_voted : list (Env * Call) :=
  [(alice, CreatePoll pick_one); (alice, SubmitVote "0" 0)].

(** A request of alice whose store write is refused with a message. *)
Definition alice_refused : Env := mkEnv (Some "alice") None (Some "timeout") 4%nat.

(** The poll of alice with votes at the indices 0, 0 and 1. *)
Definition votes_0_0_1 : Store :=
  {| polls := polls one_poll;
     votes := [mkVote "0" (Some "alice") 0; mkVote "0" None 0; mkVote "0" None 1] |}.

(** A question of [n] code units and [n] pairwise different options. *)
Definition question_of_length (n : nat) : jsstring := replicate n 81%N.
Definition distinct_options (n : nat) : list jsstring :=
  (λ i, [(65 + N.of_nat i)%N]) <$> seq 0 n.

(** The poll form with an empty string between two options. *)
Definition form_with_empty_option : FormData :=
  mkFormData (Some (js "Q")) [js "A"; []; js "B"].

(** ** Well-formed polls *)

(** The data model of a poll: a trimmed, non-empty title of at most 500
    code units, and between 2 and 10 options that are trimmed, non-empty,
    of at most 200 code units and pairwise different. *)
Definition poll_wf (p : Poll) : Prop :=
  title p ≠ [] ∧ trim (title p) = title p ∧ (length (title p) ≤ 500)%nat
  ∧ (2 ≤ length (options p) ≤ 10)%nat
  ∧ (∀ o, o ∈ options p → o ≠ [] ∧ trim o = o ∧ (length o ≤ 200)%nat)
  ∧ NoDup (options p).

(** A poll row keeps its identity: identifier, creator and creation time,
    and a soft-deleted row stays soft-deleted. *)
Definition same_poll (p p' : Poll) : Prop :=
  poll_id p' = poll_id p ∧ created_by p' = created_by p
  ∧ created_at p' = created_at p
  ∧ (is_active p = false → is_active p' = false).

(** Newest first. *)
Definition newer_or_equal (p q : Poll) : Prop := (created_at q ≤ created_at p)%nat.

(** What every sequential history keeps besides [store_ok]: stored polls
    are well formed and stored votes carry an index between 0 and 9. *)
Definition history_inv (db : Store) : Prop :=
  (∀ p, p ∈ polls db → poll_wf p)
  ∧ (∀ v, v ∈ votes db → 0 ≤ option_index v < 10).

(** ** The authentication context ([app/lib/context/auth-context.tsx])

    [AuthProvider] holds three pieces of React state and, in one effect,
    starts [supabase.auth.getUser()] and subscribes a listener to the
    provider's authentication events; the cleanup of the effect clears
    [mounted] and unsubscribes the listener. *)

Record Session := mkSession {
  session_user : UserId;
  expires_at : nat
}.

Record AuthState := mkAuthState {
  ctx_session : option Session;
  ctx_user : option UserId;
  loading : bool;
  mounted : bool
}.

(** [useState(null)], [useState(null)], [useState(true)]; [let mounted = true]. *)
Definition initial_auth : AuthState := mkAuthState None None true true.

Inductive AuthEvent :=
  | GetUserResolved (data_user : option UserId) (error : option string)
  | AuthStateChange (session : option Session)
  | Unmount.

Definition auth_step (st : AuthState) (ev : AuthEvent) : AuthState :=
  match ev with
  | GetUserResolved data_user _ =>
      if mounted st then mkAuthState None data_user false true else st
  | AuthStateChange session =>
      (* after the cleanup the listener is unsubscribed and not called *)
      if mounted st
      then mkAuthState session (session_user <$> session) (loading st) true
      else st
  | Unmount => mkAuthState (ctx_session st) (ctx_user st) (loading st) false
  end.

Definition auth_run (events : list AuthEvent) (st : AuthState) : AuthState :=
  foldl auth_step st events.

(** ** Regular expressions ([lib/utils.ts])

    The patterns of [utils.ts] are sequences of atoms: one character of a
    class, one or more characters of a class (greedy), and the end of the
    input. [match_here r s] is the backtracking match of [r] at the start
    of [s]: the length of the first match in the order in which a greedy
    matcher tries them. *)

Inductive Atom :=
  | One (p : N → bool)
  | Many (p : N → bool)
  | AtEnd.

(** [p+] followed by the rest [k] of the pattern: as many characters as
    possible first, then fewer. *)
Fixpoint match_many (k : jsstring → option nat) (p : N → bool) (s : jsstring)
    : option nat :=
  match s with
  | c :: s' =>
      if p c then
        match match_many k p s' with
        | Some n => Some (S n)
        | None => S <$> k s'
        end
      else None
  | [] => None
  end.

Fixpoint match_here (r : list Atom) (s : jsstring) {struct r} : option nat :=
  match r with
  | [] => Some 0%nat
  | One p :: r' =>
      match s with
      | c :: s' => if p c then S <$> match_here r' s' else None
      | [] => None
      end
  | Many p :: r' => match_many (match_here r') p s
  | AtEnd :: r' =>
      match s with
      | [] => match_here r' []
      | _ :: _ => None
      end
  end.

(** [r.test(s)] for a pattern that starts with [^]: a match can only start
    at index 0. *)
Definition test_anchored (r : list Atom) (s : jsstring) : bool :=
  bool_decide (is_Some (match_here r s)).

(** [s.replace(r, '')] for a pattern with the flag [g], scanning from the
    left: where the pattern matches, the match is dropped and the scan goes
    on behind it; [skip] counts the characters of the current match still
    to drop. *)
Fixpoint replace_go (r : list Atom) (skip : nat) (s : jsstring) : jsstring :=
  match s with
  | [] => []
  | c :: s' =>
      match skip with
      | S k => replace_go r k s'
      | O =>
          match match_here r s with
          | Some (S n) => replace_go r n s'
          | _ => c :: replace_go r 0 s'
          end
      end
  end.

Definition replace_all (r : list Atom) (s : jsstring) : jsstring := replace_go r 0 s.

(** Case folding of the flag [i] (without [u]): only the ASCII letters have
    a partner among the ASCII characters. *)
Definition upper (c : N) : N :=
  if ((97 <=? c) && (c <=? 122))%N then (c - 32)%N else c.

Definition chr (a : N) : N → bool := λ c, (c =? a)%N.
Definition chr_i (a : N) : N → bool := λ c, (upper c =? upper a)%N.

Definition is_digit (c : N) : bool := ((48 <=? c) && (c <=? 57))%N.

(** [[<>]] *)
Definition is_lt_gt (c : N) : bool := ((c =? 60) || (c =? 62))%N.

(** [\w] *)
Definition is_word (c : N) : bool :=
  (is_digit c || (65 <=? c) && (c <=? 90) || (97 <=? c) && (c <=? 122) || (c =? 95))%N.

(** [[0-9a-f]] with the flag [i] *)
Definition is_hex (c : N) : bool :=
  (is_digit c || (97 <=? c) && (c <=? 102) || (65 <=? c) && (c <=? 70))%N.

(** [[^\s@]] *)
Definition not_space_at (c : N) : bool := negb (is_ws c || (c =? 64)%N).

(** [/[<>]/g], [/javascript:/gi] and [/on\w+=/gi] *)
Definition lt_gt_re : list Atom := [One is_lt_gt].
Definition javascript_re : list Atom := (λ a, One (chr_i a)) <$> js "javascript:".
Definition on_handler_re : list Atom :=
  [One (chr_i 111); One (chr_i 110); Many is_word; One (chr 61)].

Definition sanitizeInput (input : jsstring) : jsstring :=
  trim (replace_all on_handler_re (replace_all javascript_re (replace_all lt_gt_re input))).

(** The character classes of
    [/^[0-9a-f]{8}-[0-9a-f]{4}-[0-9a-f]{4}-[0-9a-f]{4}-[0-9a-f]{12}$/i],
    position by position. *)
Definition uuid_classes : list (N → bool) :=
  replicate 8 is_hex ++ [chr 45] ++ replicate 4 is_hex ++ [chr 45]
  ++ replicate 4 is_hex ++ [chr 45] ++ replicate 4 is_hex ++ [chr 45]
  ++ replicate 12 is_hex.

Definition uuid_re : list Atom := (One <$> uuid_classes) ++ [AtEnd].

Definition validateUUID (uuid : jsstring) : bool := test_anchored uuid_re uuid.

(** [/^[^\s@]+@[^\s@]+\.[^\s@]+$/] *)
Definition email_re : list Atom :=
  [Many not_space_at; One (chr 64); Many not_space_at; One (chr 46);
   Many not_space_at; AtEnd].

Definition validateEmail (email : jsstring) : bool := test_anchored email_re email.

(** [rateLimitCheck] is a stub. *)
Definition rateLimitCheck (userId action : jsstring) : bool := true.

(** What a pattern matches: [m] is the matched text and [rest] what follows
    it in the input. *)
Fixpoint matches (r : list Atom) (m rest : jsstring) : Prop :=
  match r with
  | [] => m = []
  | One p :: r' => ∃ c m', m = c :: m' ∧ p c = true ∧ matches r' m' rest
  | Many p :: r' =>
      ∃ cs m', m = cs ++ m' ∧ cs ≠ [] ∧ Forall (λ c, p c = true) cs
               ∧ matches r' m' rest
  | AtEnd :: r' => m = [] ∧ rest = [] ∧ matches r' [] []
  end.

(** [pat] occurs in [s]. *)
Definition occurs_in (pat s : jsstring) : Prop := ∃ a b, s = a ++ pat ++ b.

(** * Properties *)

(** ** Lists and selections *)

Section selections.
Context {A K : Type} `{EqDecision K} (key : A → K).

Lemma filter_key_unique (l : list A) (x : A) :
  NoDup (key <$> l) → x ∈ l → filter (λ y, key y = key x) l = [x].
Proof.
  induction l as [|a l IH]; intros Hnd Hin; [by apply elem_of_nil in Hin|].
  rewrite fmap_cons in Hnd. apply NoDup_cons in Hnd as [Ha Hnd].
  apply elem_of_cons in Hin as [->|Hin].
  - rewrite filter_cons_True by done. f_equal.
    destruct (filter (λ y, key y = key a) l) as [|b l'] eqn:E; [done|].
    assert (b ∈ filter (λ y, key y = key a) l) as Hb by (rewrite E; left).
    apply list_elem_of_filter in Hb as [Hk Hb].
    exfalso. apply Ha. rewrite <- Hk. by apply list_elem_of_fmap_2.
  - rewrite filter_cons_False; [by apply IH|].
    intros Hk. apply Ha. rewrite Hk. by apply list_elem_of_fmap_2.
Qed.

Lemma filter_key_absent (l : list A) (k : K) :
  k ∉ key <$> l → filter (λ y, key y = k) l = [].
Proof.
  intros Hk. induction l as [|a l IH]; [done|].
  rewrite fmap_cons in Hk. apply not_elem_of_cons in Hk as [Hne Hk].
  rewrite filter_cons_False by congruence. by apply IH.
Qed.

End selections.

Lemma single_error_None {A} (rows : list A) :
  error (single rows) = None → ∃ r, rows = [r].
Proof. destruct rows as [|a [|b rows]]; simpl; intros H; try done. by exists a. Qed.

Lemma elem_of_insert_newest_first (p x : Poll) (l : list Poll) :
  x ∈ insert_newest_first p l ↔ x = p ∨ x ∈ l.
Proof.
  induction l as [|q l IH]; simpl.
  - rewrite elem_of_cons. done.
  - destruct (created_at q <? created_at p)%nat.
    + by rewrite elem_of_cons.
    + rewrite !elem_of_cons, IH. tauto.
Qed.

Lemma elem_of_order_created_at_desc (x : Poll) (l : list Poll) :
  x ∈ order_created_at_desc l ↔ x ∈ l.
Proof.
  induction l as [|q l IH]; [done|].
  unfold order_created_at_desc in *. simpl.
  rewrite elem_of_insert_newest_first, IH, elem_of_cons. done.
Qed.

(** ** Trimming and the set of options *)

Lemma length_set_add_all_le (seen xs : list jsstring) :
  (length (set_add_all seen xs) ≤ length seen + length xs)%nat.
Proof.
  revert seen. induction xs as [|x xs IH]; intros seen; simpl; [lia|].
  case_bool_decide.
  - specialize (IH seen). lia.
  - specialize (IH (seen ++ [x])). rewrite length_app in IH. simpl in IH. lia.
Qed.

Lemma set_add_all_NoDup (seen xs : list jsstring) :
  NoDup (seen ++ xs) → set_add_all seen xs = seen ++ xs.
Proof.
  revert seen. induction xs as [|x xs IH]; intros seen Hnd; simpl.
  - by rewrite app_nil_r.
  - case_bool_decide as Hx.
    + apply NoDup_app in Hnd as (_ & Hdisj & _).
      exfalso. apply (Hdisj x Hx). left.
    + rewrite IH; rewrite <- app_assoc; done.
Qed.

Lemma set_add_all_length_NoDup (seen xs : list jsstring) :
  NoDup seen →
  length (set_add_all seen xs) = (length seen + length xs)%nat →
  NoDup (seen ++ xs).
Proof.
  revert seen. induction xs as [|x xs IH]; intros seen Hnd Hlen; simpl in *.
  - by rewrite app_nil_r.
  - case_bool_decide as Hx.
    + pose proof (length_set_add_all_le seen xs). lia.
    + replace (seen ++ x :: xs) with ((seen ++ [x]) ++ xs)
        by (by rewrite <- app_assoc).
      apply IH.
      * apply NoDup_app. split_and!; [done| |apply NoDup_singleton].
        intros y Hy Hy'. apply list_elem_of_singleton in Hy'. by subst.
      * rewrite Hlen, length_app. simpl. lia.
Qed.

Lemma new_Set_length_iff (xs : list jsstring) :
  length (new_Set xs) = length xs ↔ NoDup xs.
Proof.
  unfold new_Set. split.
  - intros H. by apply (set_add_all_length_NoDup [] xs); [apply NoDup_nil|].
  - intros H. by rewrite (set_add_all_NoDup [] xs).
Qed.

Lemma new_Set_NoDup (xs : list jsstring) : NoDup xs → new_Set xs = xs.
Proof. intros H. by apply (set_add_all_NoDup [] xs). Qed.

Lemma trim_nil : trim [] = [].
Proof. reflexivity. Qed.

Lemma blank_test (s : jsstring) :
  bool_decide (s = []) || (length (trim s) =? 0)%nat = true ↔ trim s = [].
Proof.
  rewrite orb_true_iff, bool_decide_eq_true, Nat.eqb_eq. split.
  - intros [->|H]; [apply trim_nil|]. by apply length_zero_iff_nil.
  - intros ->. by right.
Qed.

Lemma empty_test (s : jsstring) :
  bool_decide (s = []) || (length s =? 0)%nat = true ↔ s = [].
Proof.
  rewrite orb_true_iff, bool_decide_eq_true, Nat.eqb_eq, length_zero_iff_nil.
  tauto.
Qed.

(** ** Validation *)

Lemma check_options_Some (i : nat) (opts : list jsstring) (e : Error) :
  check_options i opts = Some e →
  kind e = InvalidInput
  ∧ ∃ o, o ∈ opts ∧ (trim o = [] ∨ 200 < length (trim o))%nat.
Proof.
  revert i. induction opts as [|o opts IH]; intros i; simpl; [done|].
  destruct (bool_decide (trim o = []) || (length (trim o) =? 0)%nat) eqn:Hblank.
  - intros [= <-]. split; [done|]. exists o. split; [left|].
    left. by apply empty_test.
  - destruct (200 <? length (trim o))%nat eqn:Hlong.
    + intros [= <-]. split; [done|]. exists o. split; [left|].
      right. by apply Nat.ltb_lt.
    + intros H. destruct (IH _ H) as (Hk & o' & Ho' & Hbad).
      split; [done|]. exists o'. split; [by right|done].
Qed.

Lemma check_options_None (i : nat) (opts : list jsstring) :
  check_options i opts = None ↔
  ∀ o, o ∈ opts → trim o ≠ [] ∧ (length (trim o) ≤ 200)%nat.
Proof.
  revert i. induction opts as [|o opts IH]; intros i; simpl.
  - split; [|done]. intros _ o Ho. by apply elem_of_nil in Ho.
  - destruct (bool_decide (trim o = []) || (length (trim o) =? 0)%nat) eqn:Hblank.
    + split; [done|]. intros H. destruct (H o) as [Hne _]; [left|].
      by apply empty_test in Hblank.
    + assert (trim o ≠ []) as Hne.
      { intros Hnil. apply empty_test in Hnil. congruence. }
      destruct (200 <? length (trim o))%nat eqn:Hlong.
      * split; [done|]. intros H. destruct (H o) as [_ Hle]; [left|].
        apply Nat.ltb_lt in Hlong. lia.
      * apply Nat.ltb_ge in Hlong. rewrite IH. split.
        -- intros H o' Ho'. apply elem_of_cons in Ho' as [->|Ho']; auto.
        -- intros H o' Ho'. apply H. by right.
Qed.

Lemma filter_Boolean_id (opts : list jsstring) :
  (∀ o, o ∈ opts → o ≠ []) → filter_Boolean opts = opts.
Proof.
  unfold filter_Boolean. induction opts as [|o opts IH]; intros H; [done|].
  rewrite filter_cons_True by (apply H; left).
  f_equal. apply IH. intros o' Ho'. apply H. by right.
Qed.

Lemma validate_kind (formData : FormData) (e : Error) :
  validate formData = inl e → kind e = InvalidInput.
Proof.
  unfold validate. destruct (fd_question formData) as [question|]; [|by intros [= <-]].
  repeat (case_match; [by intros [= <-]|]).
  case_match eqn:Hc; [|by case_match; [intros [= <-]|]].
  intros [= <-]. by apply check_options_Some in Hc as [? _].
Qed.

Lemma validate_rejected (formData : FormData) :
  (∃ e, validate formData = inl e) ↔
  rejected (fd_question formData) (filter_Boolean (fd_options formData)).
Proof.
  unfold validate, rejected.
  generalize (filter_Boolean (fd_options formData)) as opts. intros opts.
  destruct (fd_question formData) as [question|]; [|split; eauto].
  destruct (bool_decide (question = []) || (length (trim question) =? 0)%nat)
    eqn:Hblank.
  { apply blank_test in Hblank. split; eauto 7. }
  assert (trim question ≠ []) as Hq.
  { intros Hnil. apply blank_test in Hnil. congruence. }
  destruct (500 <? length question)%nat eqn:Hlong.
  { apply Nat.ltb_lt in Hlong. split; eauto 7. }
  apply Nat.ltb_ge in Hlong.
  destruct (length opts <? 2)%nat eqn:Hfew.
  { apply Nat.ltb_lt in Hfew. split; eauto. }
  apply Nat.ltb_ge in Hfew.
  destruct (10 <? length opts)%nat eqn:Hmany.
  { apply Nat.ltb_lt in Hmany. split; eauto. }
  apply Nat.ltb_ge in Hmany.
  destruct (check_options 0 opts) as [e|] eqn:Hcheck.
  { apply check_options_Some in Hcheck as [_ Hbad]. split; eauto 7. }
  pose proof (proj1 (check_options_None 0 opts) Hcheck) as Hall.
  destruct (negb (length (new_Set (trim <$> opts)) =? length opts)%nat) eqn:Hdup.
  { split; [intros _|eauto]. do 4 right. intros Hnd.
    apply new_Set_length_iff in Hnd. rewrite length_fmap in Hnd.
    apply negb_true_iff, Nat.eqb_neq in Hdup. done. }
  apply negb_false_iff, Nat.eqb_eq in Hdup.
  split; [by intros [e [=]]|]. intros H. exfalso.
  destruct H as [[[=]|(t & [= <-] & [Ht|Ht])]|[H|[H|[(o & Ho & Hbad)|Hnd]]]];
    try done; try lia.
  - destruct (Hall o Ho) as [Hne Hle]. destruct Hbad; [done|lia].
  - apply Hnd, new_Set_length_iff. by rewrite length_fmap.
Qed.

Lemma validate_valid (t : jsstring) (opts : list jsstring) :
  valid_input t opts →
  validate (mkFormData (Some t) opts) = inr (t, trim <$> opts).
Proof.
  intros (Ht & Hlen & [Hlo Hhi] & Hall & Hnd).
  assert (filter_Boolean opts = opts) as Hfilter.
  { apply filter_Boolean_id. intros o Ho ->. by destruct (Hall [] Ho). }
  unfold validate. simpl. rewrite Hfilter.
  destruct (bool_decide (t = []) || (length (trim t) =? 0)%nat) eqn:Hblank.
  { by apply blank_test in Hblank. }
  destruct (500 <? length t)%nat eqn:Hlong; [apply Nat.ltb_lt in Hlong; lia|].
  destruct (length opts <? 2)%nat eqn:Hfew; [apply Nat.ltb_lt in Hfew; lia|].
  destruct (10 <? length opts)%nat eqn:Hmany; [apply Nat.ltb_lt in Hmany; lia|].
  rewrite (proj2 (check_options_None 0 opts) Hall).
  rewrite (new_Set_NoDup _ Hnd), length_fmap, Nat.eqb_refl. done.
Qed.

(** ** Looking a poll up *)

Lemma select_poll (db : Store) (row : Poll) :
  polls_pkey db → row ∈ polls db →
  filter (λ p, poll_id p = poll_id row) (polls db) = [row].
Proof. intros Hpk Hrow. by apply filter_key_unique. Qed.

Lemma select_active_poll (db : Store) (row : Poll) :
  polls_pkey db → row ∈ polls db → is_active row = true →
  filter (λ p, is_active p = true)
    (filter (λ p, poll_id p = poll_id row) (polls db)) = [row].
Proof.
  intros Hpk Hrow Hact. rewrite select_poll by done.
  by rewrite filter_cons_True.
Qed.

(** ** Vote counts *)

Lemma count_vote_nil (vote : Vote) : count_vote [] vote = [].
Proof.
  unfold count_vote. cbn [length].
  assert ((0 <=? option_index vote) && (option_index vote <? Z.of_nat 0) = false)
    as ->;
    [|done].
  apply andb_false_iff. rewrite Z.leb_gt, Z.ltb_ge. lia.
Qed.

Lemma foldl_count_vote_nil (rows : list Vote) : foldl count_vote [] rows = [].
Proof. induction rows as [|v rows IH]; simpl; [done|]. by rewrite count_vote_nil. Qed.

(** C1. The claim: [counts[i]] is the number of stored votes with
    [option_index = i], and votes at the indices 0, 0, 1 give the counts
    [2, 1] and the total 3. The code: the reducer starts from the empty
    array and only counts an index below the array's length, so it never
    counts; [voteCounts] is empty for every store and every poll, while
    [totalVotes] is the number of rows read. For votes at 0, 0, 1 the
    result is the empty array with total 3. *)
Theorem getVoteCounts_never_counts :
  (∀ db pollId,
     voteCounts (getVoteCounts db pollId) = []
     ∧ totalVotes (getVoteCounts db pollId) =
         length (filter (λ v, vote_poll_id v = pollId) (votes db)))
  ∧ option_index <$> votes votes_0_0_1 = [0; 0; 1]
  ∧ getVoteCounts votes_0_0_1 "0" = mkVoteCounts [] 3 None.
Proof.
  split; [|split; reflexivity].
  intros db pollId. unfold getVoteCounts. simpl.
  by rewrite foldl_count_vote_nil.
Qed.

(** ** Polls of a user *)

(** C3, as stated: without a requester identity [getUserPolls] answers
    the empty sequence and no error. It fails: the error field is set. *)
Lemma getUserPolls_anonymous_has_error :
  ¬ (res_polls (getUserPolls anonymous one_poll) = []
     ∧ res_polls_error (getUserPolls anonymous one_poll) = None).
Proof. intros [_ H]. discriminate H. Qed.

(** C3, amended: without a requester identity [getUserPolls] answers the
    empty sequence of polls together with the error "Not authenticated",
    whatever the store holds. *)
Theorem getUserPolls_anonymous (env : Env) (db : Store) :
  user env = None →
  getUserPolls env db = mkPollsResult [] (Some NotAuthenticated)
  ∧ message NotAuthenticated = "Not authenticated".
Proof. intros H. unfold getUserPolls. by rewrite H. Qed.

Lemma getUserPolls_anonymous_witness :
  getUserPolls anonymous one_poll = mkPollsResult [] (Some NotAuthenticated)
  ∧ message NotAuthenticated = "Not authenticated".
Proof. apply (getUserPolls_anonymous anonymous one_poll). reflexivity. Defined.

(** ** Ownership *)

Lemma deletePoll_not_owner (env : Env) (db : Store) (row : Poll) (u : UserId) :
  polls_pkey db → row ∈ polls db → is_active row = true →
  user env = Some u → userError env = None → created_by row ≠ u →
  deletePoll env db (poll_id row) = (Some UnauthorizedDelete, db).
Proof.
  intros Hpk Hrow Hact Hu Hue Hne. unfold deletePoll.
  rewrite Hu, Hue, select_active_poll by done. simpl.
  by rewrite decide_True.
Qed.

Lemma updatePoll_with_invalid finish env db pollId formData e :
  validate formData = inl e →
  updatePoll_with finish env db pollId formData = (Some e, db).
Proof. intros H. unfold updatePoll_with. by rewrite H. Qed.

Lemma updatePoll_with_not_owner finish env db row u formData v :
  validate formData = inr v →
  polls_pkey db → row ∈ polls db → is_active row = true →
  user env = Some u → userError env = None → created_by row ≠ u →
  updatePoll_with finish env db (poll_id row) formData = (Some UnauthorizedUpdate, db).
Proof.
  intros Hv Hpk Hrow Hact Hu Hue Hne. unfold updatePoll_with.
  rewrite Hv. destruct v as [question uniqueOptions].
  rewrite Hu, Hue, select_active_poll by done. simpl.
  by rewrite decide_True.
Qed.

(** C2, as stated: a requester who does not own the active poll gets
    Unauthorized from [updatePoll] for every input. It fails for an input
    that does not pass validation: bob's update of alice's poll with a
    blank question fails with "Question is required." *)
Lemma updatePoll_not_owner_invalid_input :
  created_by <$> polls one_poll = ["alice"]
  ∧ user bob = Some "bob"
  ∧ updatePoll bob one_poll "0" (mkFormData (Some (js " ")) [js "A"; js "B"])
    = (Some QuestionRequired, one_poll)
  ∧ ¬ fails_with Unauthorized
        (updatePoll bob one_poll "0" (mkFormData (Some (js " ")) [js "A"; js "B"])).
Proof.
  split_and!; try reflexivity.
  intros (e & He & Hk). vm_compute in He. inversion He; subst. discriminate Hk.
Qed.

(** C2, amended: for an active poll and a present requester identity that
    is not its owner, [deletePoll] fails with Unauthorized, and
    [updatePoll] (either copy) fails with Unauthorized when the form
    passes validation and with the validation error (InvalidInput)
    otherwise; the store is left as it was. *)
Theorem mutation_by_non_owner (env : Env) (db : Store) (row : Poll)
    (u : UserId) (formData : FormData) :
  polls_pkey db → row ∈ polls db → is_active row = true →
  user env = Some u → userError env = None → created_by row ≠ u →
  deletePoll env db (poll_id row) = (Some UnauthorizedDelete, db)
  ∧ kind UnauthorizedDelete = Unauthorized
  ∧ kind UnauthorizedUpdate = Unauthorized
  ∧ match validate formData with
    | inr _ =>
        updatePoll env db (poll_id row) formData = (Some UnauthorizedUpdate, db)
        ∧ SecondCopy.updatePoll env db (poll_id row) formData
          = (Some UnauthorizedUpdate, db)
    | inl e =>
        kind e = InvalidInput
        ∧ updatePoll env db (poll_id row) formData = (Some e, db)
        ∧ SecondCopy.updatePoll env db (poll_id row) formData = (Some e, db)
    end.
Proof.
  intros Hpk Hrow Hact Hu Hue Hne.
  split; [by eapply deletePoll_not_owner|]. do 2 (split; [done|]).
  unfold updatePoll, SecondCopy.updatePoll.
  destruct (validate formData) as [e|v] eqn:Hv.
  - split; [by eapply validate_kind|].
    split; by apply updatePoll_with_invalid.
  - split; by eapply updatePoll_with_not_owner.
Qed.

(** ** What an action does to the store *)

Lemma createPoll_store (env : Env) (db : Store) (formData : FormData) :
  (createPoll env db formData).2 = db
  ∨ ∃ uid t opts, (createPoll env db formData).2 = insert_poll env uid t opts true db.
Proof.
  unfold createPoll, write.
  repeat case_match; simplify_eq; simpl; eauto.
Qed.

Lemma updatePoll_with_store finish env db pollId formData :
  (updatePoll_with finish env db pollId formData).2 = db
  ∨ ∃ uid t opts,
      (updatePoll_with finish env db pollId formData).2
      = update_polls (retitle t opts) pollId uid db.
Proof.
  unfold updatePoll_with, write.
  repeat case_match; simplify_eq; simpl; eauto.
Qed.

Lemma deletePoll_store (env : Env) (db : Store) (id : PollId) :
  (deletePoll env db id).2 = db
  ∨ ∃ uid, (deletePoll env db id).2 = update_polls deactivate id uid db.
Proof.
  unfold deletePoll, write.
  repeat case_match; simplify_eq; simpl; eauto.
Qed.

Lemma submitVote_store (env : Env) (db : Store) (pollId : PollId) (optionIndex : Z) :
  (submitVote env db pollId optionIndex).2 = db
  ∨ ((submitVote env db pollId optionIndex).2
       = insert_vote (mkVote pollId (user env) optionIndex) db
     ∧ pollId ∈ poll_id <$> polls db
     ∧ ∀ uid v, user env = Some uid → votes_of db pollId uid ≠ [v]).
Proof.
  unfold submitVote, write.
  destruct (single (options <$> _)) as [[poll_options|] [msg|]] eqn:Hpoll;
    simpl; auto.
  destruct (_ || _); simpl; auto.
  assert (pollId ∈ poll_id <$> polls db) as Hin.
  { pose proof (single_error_None (options <$> filter (λ p, poll_id p = pollId) (polls db)))
      as Hs.
    rewrite Hpoll in Hs. destruct (Hs eq_refl) as [r Hr].
    destruct (filter (λ p, poll_id p = pollId) (polls db)) as [|row l] eqn:Hf;
      [done|].
    assert (row ∈ filter (λ p, poll_id p = pollId) (polls db)) as Hrow
      by (rewrite Hf; left).
    apply list_elem_of_filter in Hrow as [<- Hrow].
    by apply list_elem_of_fmap_2. }
  destruct (user env) as [uid|] eqn:Hu.
  - destruct (data (single _)) as [v|] eqn:Hdup; simpl; auto.
    destruct (storeError env); simpl; auto.
    right. split_and!; try done.
    intros uid' v [= <-] Hv. unfold votes_of in Hv. rewrite Hv in Hdup. done.
  - destruct (storeError env); simpl; auto.
Qed.

(** ** The invariant of sequential histories *)

Lemma store_ok_empty : store_ok empty_store.
Proof.
  split_and!.
  - apply NoDup_nil_2.
  - intros v Hv. by apply elem_of_nil in Hv.
  - intros p u. simpl. lia.
Qed.

Lemma insert_poll_ok env uid t opts active db :
  store_ok db → store_ok (insert_poll env uid t opts active db).
Proof.
  intros (Hpk & Href & Hone). split_and!.
  - unfold polls_pkey, insert_poll, gen_random_uuid. simpl.
    rewrite fmap_app. apply NoDup_app. split_and!; [done| |apply NoDup_singleton].
    intros x Hx Hx'. apply list_elem_of_singleton in Hx'. subst x.
    by apply infinite_is_fresh in Hx.
  - intros v Hv. simpl. rewrite fmap_app. apply elem_of_app. left. by apply Href.
  - done.
Qed.

Lemma update_polls_ids change id uid db :
  (∀ p, poll_id (change p) = poll_id p) →
  poll_id <$> polls (update_polls change id uid db) = poll_id <$> polls db.
Proof.
  intros Hid. unfold update_polls. simpl. rewrite <- list_fmap_compose.
  apply list_fmap_ext. intros i p _. simpl. by case_decide.
Qed.

Lemma update_polls_ok change id uid db :
  (∀ p, poll_id (change p) = poll_id p) →
  store_ok db → store_ok (update_polls change id uid db).
Proof.
  intros Hid (Hpk & Href & Hone). unfold store_ok, polls_pkey.
  rewrite update_polls_ids by done. done.
Qed.

Lemma votes_of_insert_vote (v : Vote) (db : Store) (p : PollId) (u : UserId) :
  votes_of (insert_vote v db) p u =
  votes_of db p u ++
    (if decide (vote_poll_id v = p ∧ vote_user_id v = Some u) then [v] else []).
Proof.
  unfold votes_of, insert_vote. simpl. rewrite !filter_app. f_equal.
  case_decide as H.
  - destruct H. by rewrite !filter_cons_True.
  - destruct (decide (vote_poll_id v = p)).
    + rewrite filter_cons_True by done. rewrite filter_cons_False; [done|tauto].
    + by rewrite filter_cons_False.
Qed.

Lemma insert_vote_ok (env : Env) (db : Store) (pollId : PollId) (optionIndex : Z) :
  pollId ∈ poll_id <$> polls db →
  (∀ uid v, user env = Some uid → votes_of db pollId uid ≠ [v]) →
  store_ok db → store_ok (insert_vote (mkVote pollId (user env) optionIndex) db).
Proof.
  intros Hin Hnew (Hpk & Href & Hone). split_and!; [done| |].
  - intros v Hv. simpl in *. apply elem_of_app in Hv as [Hv|Hv]; [by apply Href|].
    apply list_elem_of_singleton in Hv. by subst v.
  - intros p u. rewrite votes_of_insert_vote. simpl.
    case_decide as H; [|rewrite app_nil_r; apply Hone].
    destruct H as [-> Hu]. specialize (Hone p u).
    destruct (votes_of db p u) as [|v [|v' l]] eqn:Hv; simpl in *; [lia| |lia].
    by destruct (Hnew u v Hu).
Qed.

Lemma perform_ok (env : Env) (c : Call) (db : Store) :
  store_ok db → store_ok (perform env c db).2.
Proof.
  intros Hok. destruct c as [fd|p fd|p fd|p|p i]; simpl.
  - destruct (createPoll_store env db fd) as [->|(u & t & o & ->)]; [done|].
    by apply insert_poll_ok.
  - destruct (updatePoll_with_store (λ _, None) env db p fd)
      as [H|(u & t & o & H)]; unfold updatePoll; rewrite H; [done|].
    by apply update_polls_ok.
  - destruct (updatePoll_with_store (λ err, StoreMessage <$> err) env db p fd)
      as [H|(u & t & o & H)]; unfold SecondCopy.updatePoll; rewrite H; [done|].
    by apply update_polls_ok.
  - destruct (deletePoll_store env db p) as [->|(u & ->)]; [done|].
    by apply update_polls_ok.
  - destruct (submitVote_store env db p i) as [->|(-> & Hin & Hnew)]; [done|].
    by apply insert_vote_ok.
Qed.

Lemma run_ok (history : list (Env * Call)) (db : Store) :
  store_ok db → store_ok (run history db).
Proof.
  revert db. induction history as [|[env c] history IH]; intros db Hok; [done|].
  simpl. apply IH. by apply perform_ok.
Qed.

(** ** Submitting a vote *)

Lemma submitVote_absent (env : Env) (db : Store) (pollId : PollId) (optionIndex : Z) :
  pollId ∉ poll_id <$> polls db →
  submitVote env db pollId optionIndex = (Some PollNotFound, db).
Proof. intros H. unfold submitVote. by rewrite filter_key_absent. Qed.

Lemma submitVote_out_of_range (env : Env) (db : Store) (row : Poll) (optionIndex : Z) :
  polls_pkey db → row ∈ polls db →
  optionIndex < 0 ∨ Z.of_nat (length (options row)) ≤ optionIndex →
  submitVote env db (poll_id row) optionIndex = (Some InvalidOption, db).
Proof.
  intros Hpk Hrow Hi. unfold submitVote. rewrite select_poll by done. simpl.
  assert ((optionIndex <? 0) || (Z.of_nat (length (options row)) <=? optionIndex)
          = true) as ->; [|done].
  apply orb_true_iff. rewrite Z.ltb_lt, Z.leb_le. done.
Qed.

Lemma submitVote_in_range (env : Env) (db : Store) (row : Poll) (optionIndex : Z) :
  polls_pkey db → row ∈ polls db →
  0 ≤ optionIndex < Z.of_nat (length (options row)) →
  submitVote env db (poll_id row) optionIndex =
  match
    match user env with
    | Some uid => data (single (votes_of db (poll_id row) uid))
    | None => None
    end
  with
  | Some _ => (Some AlreadyVoted, db)
  | None =>
      match storeError env with
      | Some msg => (Some (StoreMessage msg), db)
      | None => (None, insert_vote (mkVote (poll_id row) (user env) optionIndex) db)
      end
  end.
Proof.
  intros Hpk Hrow Hi. unfold submitVote, write, votes_of.
  rewrite select_poll by done. simpl.
  assert ((optionIndex <? 0) || (Z.of_nat (length (options row)) <=? optionIndex)
          = false) as ->.
  { apply orb_false_iff. rewrite Z.ltb_ge, Z.leb_gt. lia. }
  repeat case_match; simplify_eq; done.
Qed.

Lemma voted_once (db : Store) (p : PollId) (u : UserId) (v : Vote) :
  store_ok db → v ∈ votes db → vote_poll_id v = p → vote_user_id v = Some u →
  votes_of db p u = [v].
Proof.
  intros (_ & _ & Hone) Hv Hp Hu. specialize (Hone p u).
  assert (v ∈ votes_of db p u) as Hin.
  { unfold votes_of. rewrite !list_elem_of_filter. done. }
  destruct (votes_of db p u) as [|v0 [|v1 l]]; simpl in *.
  - by apply elem_of_nil in Hin.
  - apply list_elem_of_singleton in Hin. by subst.
  - lia.
Qed.

(** C4. After a sequential history of calls on the empty store, if user
    [u] has a vote on poll [p], a further authenticated [submitVote] of [u]
    on [p] never succeeds and leaves the store as it is; with an option
    index of the poll it fails with "You have already voted on this poll"
    (DuplicateVote), the index check coming first otherwise. Without a
    requester identity no duplicate check is made: two anonymous votes in a
    row on the same poll both succeed and both rows are stored. *)
Theorem submitVote_duplicates :
  (∀ history env p u optionIndex,
     let db := run history empty_store in
     user env = Some u →
     (∃ v, v ∈ votes db ∧ vote_poll_id v = p ∧ vote_user_id v = Some u) →
     ∃ row, row ∈ polls db ∧ poll_id row = p
       ∧ (submitVote env db p optionIndex).2 = db
       ∧ (0 ≤ optionIndex < Z.of_nat (length (options row)) →
          submitVote env db p optionIndex = (Some AlreadyVoted, db))
       ∧ (¬ 0 ≤ optionIndex < Z.of_nat (length (options row)) →
          submitVote env db p optionIndex = (Some InvalidOption, db)))
  ∧ kind AlreadyVoted = DuplicateVote
  ∧ (∀ env1 env2 db row i j,
       polls_pkey db → row ∈ polls db →
       user env1 = None → storeError env1 = None →
       user env2 = None → storeError env2 = None →
       0 ≤ i < Z.of_nat (length (options row)) →
       0 ≤ j < Z.of_nat (length (options row)) →
       let db1 := insert_vote (mkVote (poll_id row) None i) db in
       let db2 := insert_vote (mkVote (poll_id row) None j) db1 in
       submitVote env1 db (poll_id row) i = (None, db1)
       ∧ submitVote env2 db1 (poll_id row) j = (None, db2)
       ∧ votes db2
         = votes db ++ [mkVote (poll_id row) None i; mkVote (poll_id row) None j]).
Proof.
  split_and!; [|done|].
  - intros history env p u i db Hu (v & Hv & Hp & Hvu).
    assert (store_ok db) as Hok by apply run_ok, store_ok_empty.
    pose proof Hok as (Hpk & Href & _).
    specialize (Href v Hv). rewrite Hp in Href.
    apply list_elem_of_fmap in Href as (row & -> & Hrow).
    exists row. split_and!; [done..| | |].
    + destruct (submitVote_store env db (poll_id row) i) as [H|(_ & _ & H)];
        [done|].
      exfalso. apply (H u v Hu). by apply voted_once.
    + intros Hi. rewrite submitVote_in_range by done.
      rewrite Hu, (voted_once db (poll_id row) u v) by done. done.
    + intros Hi. apply submitVote_out_of_range; [done..|lia].
  - intros env1 env2 db row i j Hpk Hrow Hu1 He1 Hu2 He2 Hi Hj db1 db2.
    split_and!.
    + rewrite submitVote_in_range by done. by rewrite Hu1, He1.
    + rewrite submitVote_in_range by done. by rewrite Hu2, He2.
    + simpl. by rewrite <- app_assoc.
Qed.

(** C8. Under the primary key of [polls], [submitVote] fails with
    "Poll not found" (NotFound) exactly when no row of [polls], active or
    not, has the identifier; on a soft-deleted poll, with an option index
    of the poll, a requester who is anonymous or has no vote on the poll
    yet, and a store that takes the insert, the vote is stored. *)
Theorem submitVote_not_found_iff (env : Env) (db : Store) (pollId : PollId)
    (optionIndex : Z) :
  polls_pkey db →
  (fails_with NotFound (submitVote env db pollId optionIndex)
   ↔ ¬ ∃ row, row ∈ polls db ∧ poll_id row = pollId)
  ∧ (∀ row,
       row ∈ polls db → poll_id row = pollId → is_active row = false →
       0 ≤ optionIndex < Z.of_nat (length (options row)) →
       (∀ uid, user env = Some uid → votes_of db pollId uid = []) →
       storeError env = None →
       submitVote env db pollId optionIndex
       = (None, insert_vote (mkVote pollId (user env) optionIndex) db)).
Proof.
  intros Hpk. split.
  - split.
    + intros (e & He & Hk) (row & Hrow & <-).
      destruct (decide (0 ≤ optionIndex < Z.of_nat (length (options row)))) as [Hi|Hi].
      * rewrite submitVote_in_range in He by done.
        repeat case_match; simpl in *; simplify_eq; done.
      * rewrite submitVote_out_of_range in He by (done || lia).
        simpl in He. by simplify_eq.
    + intros Hno. rewrite submitVote_absent; [by exists PollNotFound|].
      intros Hin. apply Hno. apply list_elem_of_fmap in Hin as (row & -> & Hrow).
      by exists row.
  - intros row Hrow <- Hact Hi Hnew Hse.
    rewrite submitVote_in_range by done. rewrite Hse.
    destruct (user env) as [uid|]; [|done]. by rewrite (Hnew uid).
Qed.

(** C9. Under the primary key of [polls], for a stored poll with [n]
    options, [submitVote] fails with InvalidInput if and only if the option
    index is negative or at least [n]; it then answers "Invalid option
    selected" and stores no vote. *)
Theorem submitVote_invalid_option_iff (env : Env) (db : Store) (row : Poll)
    (optionIndex : Z) :
  polls_pkey db → row ∈ polls db →
  let n := Z.of_nat (length (options row)) in
  (fails_with InvalidInput (submitVote env db (poll_id row) optionIndex)
   ↔ optionIndex < 0 ∨ n ≤ optionIndex)
  ∧ (optionIndex < 0 ∨ n ≤ optionIndex →
     submitVote env db (poll_id row) optionIndex = (Some InvalidOption, db)).
Proof.
  intros Hpk Hrow n. split.
  - split.
    + intros (e & He & Hk).
      destruct (decide (0 ≤ optionIndex < n)) as [Hi|Hi]; [|lia].
      rewrite submitVote_in_range in He by done.
      repeat case_match; simpl in *; simplify_eq; done.
    + intros Hi. rewrite submitVote_out_of_range by done. by exists InvalidOption.
  - intros Hi. by apply submitVote_out_of_range.
Qed.

(** ** Creating a poll *)

(** C5. For an authenticated requester, a valid question and valid
    options, and a store that takes the insert, [createPoll] succeeds and
    appends one row under an identifier that was not in use; [getPollById]
    of that identifier answers this row, whose options are the trimmed
    input options in their order (which is also what the [Set] of the
    trimmed options holds), whose creator is the requester and which is
    active. *)
Theorem createPoll_then_getPollById (env : Env) (db : Store) (u : UserId)
    (t : jsstring) (opts : list jsstring) :
  user env = Some u → userError env = None → storeError env = None →
  valid_input t opts →
  let out := createPoll env db (mkFormData (Some t) opts) in
  out.1 = None
  ∧ ∃ row,
      (poll_id row ∉ poll_id <$> polls db)
      ∧ polls out.2 = polls db ++ [row]
      ∧ getPollById out.2 (poll_id row) = mkPollResult (Some row) None
      ∧ options row = new_Set (trim <$> opts)
      ∧ options row = trim <$> opts
      ∧ created_by row = u
      ∧ is_active row = true
      ∧ title row = trim t.
Proof.
  intros Hu Hue Hse Hvalid out. subst out.
  unfold createPoll, write. rewrite (validate_valid _ _ Hvalid), Hu, Hue, Hse.
  simpl. split; [done|].
  eexists (mkPoll _ _ _ _ _ _). simpl. split_and!; try reflexivity.
  - apply infinite_is_fresh.
  - unfold getPollById. simpl. rewrite filter_app.
    rewrite (filter_key_absent poll_id) by apply infinite_is_fresh.
    simpl. by rewrite !filter_cons_True.
  - destruct Hvalid as (_ & _ & _ & _ & Hnd). by rewrite new_Set_NoDup.
Qed.

(** ** Validation of the poll form *)

Lemma createPoll_invalid_iff (env : Env) (db : Store) (formData : FormData) :
  fails_with InvalidInput (createPoll env db formData)
  ↔ ∃ e, validate formData = inl e.
Proof.
  unfold fails_with, createPoll, write. split.
  - intros (e & He & Hk). destruct (validate formData) as [e'|v]; [by exists e'|].
    repeat case_match; simpl in *; simplify_eq; done.
  - intros [e He]. rewrite He. exists e. split; [done|]. by eapply validate_kind.
Qed.

Lemma updatePoll_with_invalid_iff finish env db pollId formData :
  (∀ err e, finish err = Some e → kind e ≠ InvalidInput) →
  fails_with InvalidInput (updatePoll_with finish env db pollId formData)
  ↔ ∃ e, validate formData = inl e.
Proof.
  intros Hfinish. unfold fails_with, updatePoll_with, write. split.
  - intros (e & He & Hk). destruct (validate formData) as [e'|v]; [by exists e'|].
    exfalso. repeat case_match; simpl in *; simplify_eq; try done.
    all: by eapply Hfinish.
  - intros [e He]. rewrite He. exists e. split; [done|]. by eapply validate_kind.
Qed.

(** C6, as stated: [createPoll] fails with InvalidInput exactly when the
    submitted question and options meet a rejection condition. It fails
    for a form whose options are "A", the empty string and "B": an option
    is empty, and the poll is created, with the options "A" and "B". *)
Lemma createPoll_accepts_empty_option :
  (createPoll alice empty_store form_with_empty_option).1 = None
  ∧ options <$> polls (createPoll alice empty_store form_with_empty_option).2
    = [[js "A"; js "B"]]
  ∧ ¬ (fails_with InvalidInput (createPoll alice empty_store form_with_empty_option)
       ↔ rejected (fd_question form_with_empty_option)
           (fd_options form_with_empty_option)).
Proof.
  split_and!; [reflexivity..|].
  intros [_ H]. destruct H as (e & He & _); [|discriminate He].
  do 3 right. left. exists []. split; [|by left].
  apply list_elem_of_In. simpl. tauto.
Qed.

(** C6, amended: the options that count are the submitted option values
    other than the empty string, which are dropped before any check.
    [createPoll] and [updatePoll] (either copy) fail with InvalidInput
    exactly when the question is missing, blank or longer than 500 code
    units, fewer than 2 or more than 10 options remain, a remaining option
    is blank or longer than 200 code units after trimming, or two remaining
    options agree after trimming. At the boundaries: 2 and 10 options and a
    question of 500 code units pass, 1 and 11 options and a question of 501
    code units do not, nor do the options "A" and " A ". *)
Theorem validation_rejects_iff (env : Env) (db : Store) (pollId : PollId)
    (formData : FormData) :
  let bad := rejected (fd_question formData) (filter_Boolean (fd_options formData)) in
  (fails_with InvalidInput (createPoll env db formData) ↔ bad)
  ∧ (fails_with InvalidInput (updatePoll env db pollId formData) ↔ bad)
  ∧ (fails_with InvalidInput (SecondCopy.updatePoll env db pollId formData) ↔ bad)
  ∧ validate (mkFormData (Some (question_of_length 500)) (distinct_options 2))
    = inr (question_of_length 500, distinct_options 2)
  ∧ validate (mkFormData (Some (question_of_length 500)) (distinct_options 10))
    = inr (question_of_length 500, distinct_options 10)
  ∧ validate (mkFormData (Some (question_of_length 501)) (distinct_options 2))
    = inl QuestionTooLong
  ∧ validate (mkFormData (Some (js "Q")) (distinct_options 1)) = inl TooFewOptions
  ∧ validate (mkFormData (Some (js "Q")) (distinct_options 11)) = inl TooManyOptions
  ∧ validate (mkFormData (Some (js "Q")) [js "A"; js " A "]) = inl DuplicateOptions.
Proof.
  intros bad. subst bad. rewrite <- validate_rejected. split_and!.
  - apply createPoll_invalid_iff.
  - apply updatePoll_with_invalid_iff. done.
  - apply updatePoll_with_invalid_iff. by intros [msg|] e [= <-].
  - by vm_compute.
  - by vm_compute.
  - by vm_compute.
  - by vm_compute.
  - by vm_compute.
  - by vm_compute.
Qed.

(** ** Deleting a poll *)

Lemma pkey_inj (db : Store) (q row : Poll) :
  polls_pkey db → q ∈ polls db → row ∈ polls db →
  poll_id q = poll_id row → q = row.
Proof.
  intros Hpk Hq Hrow Hid.
  assert (q ∈ filter (λ p, poll_id p = poll_id row) (polls db)) as Hin
    by by apply list_elem_of_filter.
  rewrite select_poll in Hin by done. by apply list_elem_of_singleton in Hin.
Qed.

Lemma no_elem_nil {A} (l : list A) : (∀ x, x ∉ l) → l = [].
Proof. destruct l as [|a l]; [done|]. intros H. destruct (H a). left. Qed.

(** C7. For an active poll of the authenticated requester, and a store
    that takes the update, [deletePoll] succeeds; the poll's row becomes
    the same row with [is_active = false] and every other row of [polls]
    stays as it was; table [votes] is the same, so [getVoteCounts] answers
    as before for every poll; [getPollById] of the poll finds no row, and
    no environment's [getUserPolls] lists it. *)
Theorem deletePoll_soft_delete (env : Env) (db : Store) (row : Poll) (u : UserId) :
  polls_pkey db → row ∈ polls db → is_active row = true → created_by row = u →
  user env = Some u → userError env = None → storeError env = None →
  let out := deletePoll env db (poll_id row) in
  out.1 = None
  ∧ polls out.2
    = (λ q, if decide (q = row)
            then mkPoll (poll_id row) (created_by row) (title row) (options row)
                   false (created_at row)
            else q) <$> polls db
  ∧ votes out.2 = votes db
  ∧ (∀ p, getVoteCounts out.2 p = getVoteCounts db p)
  ∧ res_poll (getPollById out.2 (poll_id row)) = None
  ∧ res_poll_error (getPollById out.2 (poll_id row)) ≠ None
  ∧ (∀ env' q, q ∈ res_polls (getUserPolls env' out.2) → poll_id q ≠ poll_id row).
Proof.
  intros Hpk Hrow Hact Hown Hu Hue Hse out. subst out.
  unfold deletePoll, write.
  rewrite Hu, Hue, select_active_poll, Hse by done. simpl.
  rewrite decide_False by (intros H; by apply H).
  simpl.
  assert (∀ q, q ∈ polls db →
            (if decide (poll_id q = poll_id row ∧ created_by q = u)
             then deactivate q else q)
            = (if decide (q = row) then deactivate row else q)) as Hsame.
  { intros q Hq. destruct (decide (q = row)) as [->|Hne].
    - by rewrite decide_True.
    - rewrite decide_False; [done|]. intros [Hid _]. by apply Hne, (pkey_inj db). }
  assert (∀ q, q ∈ polls (update_polls deactivate (poll_id row) u db) →
            is_active q = true → poll_id q ≠ poll_id row) as Hgone.
  { intros q' Hq' Hact' Hid. simpl in Hq'.
    apply list_elem_of_fmap in Hq' as (q & -> & Hq). rewrite Hsame in * by done.
    destruct (decide (q = row)) as [->|Hne]; [done|].
    by apply Hne, (pkey_inj db). }
  split_and!; try done.
  - apply list_fmap_ext. intros i q Hi. apply Hsame.
    by eapply list_elem_of_lookup_2.
  - unfold getPollById.
    rewrite (no_elem_nil (filter (λ p, is_active p = true) _)); [done|].
    intros q Hq. apply list_elem_of_filter in Hq as [Hact' Hq].
    apply list_elem_of_filter in Hq as [Hid Hq]. by eapply Hgone.
  - unfold getPollById.
    rewrite (no_elem_nil (filter (λ p, is_active p = true) _)); [done|].
    intros q Hq. apply list_elem_of_filter in Hq as [Hact' Hq].
    apply list_elem_of_filter in Hq as [Hid Hq]. by eapply Hgone.
  - intros env' q. unfold getUserPolls. destruct (user env') as [uid|]; simpl.
    + rewrite elem_of_order_created_at_desc. intros Hq.
      apply list_elem_of_filter in Hq as [Hact' Hq].
      apply list_elem_of_filter in Hq as [_ Hq]. by apply Hgone.
    + intros Hq. by apply elem_of_nil in Hq.
Qed.

(** ** Updating a poll *)

(** C10. Once the form passes validation and the requester owns the
    active poll, the first copy of [updatePoll] answers [{ error: null }]
    whatever the store answers to the update; when the store refuses the
    update with a message, the first copy still reports success (the store
    being as before) and the second copy reports the message. *)
Theorem updatePoll_ignores_store_error (env : Env) (db : Store) (row : Poll)
    (u : UserId) (formData : FormData) (v : jsstring * list jsstring) :
  validate formData = inr v →
  user env = Some u → userError env = None →
  polls_pkey db → row ∈ polls db → is_active row = true → created_by row = u →
  (updatePoll env db (poll_id row) formData).1 = None
  ∧ ∀ msg, storeError env = Some msg →
      updatePoll env db (poll_id row) formData = (None, db)
      ∧ SecondCopy.updatePoll env db (poll_id row) formData
        = (Some (StoreMessage msg), db).
Proof.
  intros Hv Hu Hue Hpk Hrow Hact Hown.
  unfold updatePoll, SecondCopy.updatePoll, updatePoll_with, write.
  rewrite Hv. destruct v as [question uniqueOptions].
  rewrite Hu, Hue, select_active_poll by done. simpl.
  rewrite !decide_False by (intros H; by apply H).
  split; [by destruct (storeError env)|].
  intros msg ->. done.
Qed.

(** ** The properties on the example stores *)

Example createPoll_pick_one :
  createPoll alice empty_store pick_one = (None, one_poll).
Proof. reflexivity. Qed.

Example deletePoll_the_poll :
  deletePoll alice one_poll "0" = (None, deleted_poll).
Proof. reflexivity. Qed.

Lemma mutation_by_non_owner_witness :
  deletePoll bob one_poll "0" = (Some UnauthorizedDelete, one_poll)
  ∧ updatePoll bob one_poll "0" pick_one = (Some UnauthorizedUpdate, one_poll)
  ∧ SecondCopy.updatePoll bob one_poll "0" pick_one
    = (Some UnauthorizedUpdate, one_poll).
Proof.
  assert (polls_pkey one_poll) as Hpk by apply NoDup_singleton.
  assert (the_poll ∈ polls one_poll) as Hrow by left.
  destruct (mutation_by_non_owner bob one_poll the_poll "bob" pick_one
              Hpk Hrow eq_refl eq_refl eq_refl) as (Hd & _ & _ & Hupd).
  - discriminate.
  - split; [exact Hd|]. exact Hupd.
Defined.

Lemma submitVote_duplicates_witness :
  (∃ row, row ∈ polls (run alice_voted empty_store) ∧ poll_id row = "0"
     ∧ (submitVote alice (run alice_voted empty_store) "0" 1).2
       = run alice_voted empty_store
     ∧ (0 ≤ 1 < Z.of_nat (length (options row)) →
        submitVote alice (run alice_voted empty_store) "0" 1
        = (Some AlreadyVoted, run alice_voted empty_store))
     ∧ (¬ 0 ≤ 1 < Z.of_nat (length (options row)) →
        submitVote alice (run alice_voted empty_store) "0" 1
        = (Some InvalidOption, run alice_voted empty_store)))
  ∧ submitVote anonymous one_poll "0" 0
    = (None, insert_vote (mkVote "0" None 0) one_poll)
  ∧ submitVote anonymous (insert_vote (mkVote "0" None 0) one_poll) "0" 1
    = (None, insert_vote (mkVote "0" None 1)
               (insert_vote (mkVote "0" None 0) one_poll)).
Proof.
  destruct submitVote_duplicates as (Hdup & _ & Hanon). split.
  - apply (Hdup alice_voted alice "0" "alice" 1 eq_refl).
    exists (mkVote "0" (Some "alice") 0). split; [vm_compute; left|done].
  - assert (polls_pkey one_poll) as Hpk by apply NoDup_singleton.
    assert (the_poll ∈ polls one_poll) as Hrow by left.
    destruct (Hanon anonymous anonymous one_poll the_poll 0 1
                Hpk Hrow eq_refl eq_refl eq_refl eq_refl) as (H1 & H2 & _).
    + simpl. lia.
    + simpl. lia.
    + split; [exact H1|exact H2].
Defined.

Lemma createPoll_then_getPollById_witness :
  (createPoll alice empty_store pick_one).1 = None
  ∧ ∃ row,
      (poll_id row ∉ poll_id <$> polls empty_store)
      ∧ polls (createPoll alice empty_store pick_one).2 = polls empty_store ++ [row]
      ∧ getPollById (createPoll alice empty_store pick_one).2 (poll_id row)
        = mkPollResult (Some row) None
      ∧ options row = new_Set (trim <$> [js "A"; js "B"])
      ∧ options row = trim <$> [js "A"; js "B"]
      ∧ created_by row = "alice"
      ∧ is_active row = true
      ∧ title row = trim (js "Pick one").
Proof.
  apply (createPoll_then_getPollById alice empty_store "alice"
           (js "Pick one") [js "A"; js "B"] eq_refl eq_refl eq_refl).
  split_and!.
  - vm_compute. discriminate.
  - vm_compute. lia.
  - simpl. lia.
  - simpl. lia.
  - intros o Ho. apply list_elem_of_In in Ho.
    destruct Ho as [<-|[<-|[]]]; vm_compute; (split; [discriminate|lia]).
  - apply (bool_decide_unpack _). vm_compute. exact I.
Defined.

Lemma deletePoll_soft_delete_witness :
  (deletePoll alice one_poll "0").1 = None
  ∧ polls (deletePoll alice one_poll "0").2 = polls deleted_poll
  ∧ votes (deletePoll alice one_poll "0").2 = votes one_poll
  ∧ res_poll (getPollById (deletePoll alice one_poll "0").2 "0") = None.
Proof.
  assert (polls_pkey one_poll) as Hpk by apply NoDup_singleton.
  assert (the_poll ∈ polls one_poll) as Hrow by left.
  destruct (deletePoll_soft_delete alice one_poll the_poll "alice"
              Hpk Hrow eq_refl eq_refl eq_refl eq_refl eq_refl)
    as (Hok & Hpolls & Hvotes & _ & Hget & _).
  split_and!; [exact Hok| |exact Hvotes|exact Hget].
  etrans; [exact Hpolls|reflexivity].
Defined.

Lemma submitVote_not_found_iff_witness :
  (fails_with NotFound (submitVote alice deleted_poll "0" 1)
   ↔ ¬ ∃ row, row ∈ polls deleted_poll ∧ poll_id row = "0")
  ∧ submitVote alice deleted_poll "0" 1
    = (None, insert_vote (mkVote "0" (Some "alice") 1) deleted_poll).
Proof.
  assert (polls_pkey deleted_poll) as Hpk by apply NoDup_singleton.
  destruct (submitVote_not_found_iff alice deleted_poll "0" 1 Hpk) as [Hiff Hvote].
  split; [exact Hiff|].
  apply (Hvote (mkPoll "0" "alice" (js "Pick one") [js "A"; js "B"] false 1)).
  - left.
  - reflexivity.
  - reflexivity.
  - simpl. lia.
  - intros uid _. reflexivity.
  - reflexivity.
Defined.

Lemma submitVote_invalid_option_iff_witness :
  (fails_with InvalidInput (submitVote anonymous one_poll "0" 2) ↔ 2 < 0 ∨ 2 ≤ 2)
  ∧ (2 < 0 ∨ 2 ≤ 2 →
     submitVote anonymous one_poll "0" 2 = (Some InvalidOption, one_poll)).
Proof.
  assert (polls_pkey one_poll) as Hpk by apply NoDup_singleton.
  assert (the_poll ∈ polls one_poll) as Hrow by left.
  exact (submitVote_invalid_option_iff anonymous one_poll the_poll 2 Hpk Hrow).
Defined.

Lemma updatePoll_ignores_store_error_witness :
  (updatePoll alice_refused one_poll "0" pick_one).1 = None
  ∧ updatePoll alice_refused one_poll "0" pick_one = (None, one_poll)
  ∧ SecondCopy.updatePoll alice_refused one_poll "0" pick_one
    = (Some (StoreMessage "timeout"), one_poll).
Proof.
  assert (polls_pkey one_poll) as Hpk by apply NoDup_singleton.
  assert (the_poll ∈ polls one_poll) as Hrow by left.
  destruct (updatePoll_ignores_store_error alice_refused one_poll the_poll "alice"
              pick_one (js "Pick one", [js "A"; js "B"])
              eq_refl eq_refl eq_refl Hpk Hrow eq_refl eq_refl) as [Hnull Hmsg].
  split; [exact Hnull|]. exact (Hmsg "timeout" eq_refl).
Defined.

(** * Further properties *)

(** ** Trimming *)

Lemma trimStart_split (s : jsstring) :
  ∃ pre, s = pre ++ trimStart s ∧ Forall (λ c, is_ws c = true) pre.
Proof.
  induction s as [|c s (pre & IH & Hpre)]; [by exists []|]. simpl.
  destruct (is_ws c) eqn:Hc.
  - exists (c :: pre). split; [by rewrite IH at 1|]. by constructor.
  - by exists [].
Qed.

Lemma trimStart_head (s : jsstring) (c : N) :
  head (trimStart s) = Some c → is_ws c = false.
Proof.
  induction s as [|d s IH]; simpl; [done|].
  destruct (is_ws d) eqn:Hd; [done|]. by intros [= <-].
Qed.

Lemma trimStart_id (s : jsstring) :
  (∀ c, head s = Some c → is_ws c = false) → trimStart s = s.
Proof. destruct s as [|c s]; [done|]. intros H. simpl. by rewrite (H c). Qed.

Lemma trimStart_snoc (s : jsstring) (c : N) :
  is_ws c = false → trimStart (s ++ [c]) = trimStart s ++ [c].
Proof.
  intros Hc. induction s as [|d s IH]; simpl; [by rewrite Hc|].
  by destruct (is_ws d).
Qed.

Lemma trimEnd_split (s : jsstring) :
  ∃ post, s = trimEnd s ++ post ∧ Forall (λ c, is_ws c = true) post.
Proof.
  destruct (trimStart_split (reverse s)) as (pre & Hs & Hpre).
  exists (reverse pre). split; [|by apply Forall_reverse].
  unfold trimEnd. rewrite <- reverse_app, <- Hs. by rewrite reverse_involutive.
Qed.

Lemma trimEnd_last (s : jsstring) (c : N) :
  last (trimEnd s) = Some c → is_ws c = false.
Proof. unfold trimEnd. rewrite last_reverse. apply trimStart_head. Qed.

Lemma trimEnd_head (s : jsstring) (c : N) :
  head s = Some c → is_ws c = false → head (trimEnd s) = Some c.
Proof.
  destruct s as [|d s]; [done|]. intros [= ->] Hc. unfold trimEnd.
  rewrite reverse_cons, trimStart_snoc by done.
  by rewrite reverse_app.
Qed.

Lemma trimEnd_id (s : jsstring) :
  (∀ c, last s = Some c → is_ws c = false) → trimEnd s = s.
Proof.
  intros H. unfold trimEnd. rewrite trimStart_id; [apply reverse_involutive|].
  intros c. rewrite head_reverse. apply H.
Qed.

Lemma trim_head (s : jsstring) (c : N) : head (trim s) = Some c → is_ws c = false.
Proof.
  unfold trim. destruct (trimStart s) as [|d t] eqn:Ht; [done|].
  assert (is_ws d = false) as Hd by (apply (trimStart_head s); by rewrite Ht).
  rewrite (trimEnd_head (d :: t) d) by done. by intros [= <-].
Qed.

Lemma trim_last (s : jsstring) (c : N) : last (trim s) = Some c → is_ws c = false.
Proof. apply trimEnd_last. Qed.

Lemma trim_fixed (s : jsstring) :
  (∀ c, head s = Some c → is_ws c = false) →
  (∀ c, last s = Some c → is_ws c = false) →
  trim s = s.
Proof. intros Hh Hl. unfold trim. rewrite trimStart_id by done. by apply trimEnd_id. Qed.

Lemma trim_idemp (s : jsstring) : trim (trim s) = trim s.
Proof. apply trim_fixed; [apply trim_head|apply trim_last]. Qed.

Lemma trim_split (s : jsstring) :
  ∃ pre post, s = pre ++ trim s ++ post
    ∧ Forall (λ c, is_ws c = true) pre ∧ Forall (λ c, is_ws c = true) post.
Proof.
  destruct (trimStart_split s) as (pre & Hs & Hpre).
  destruct (trimEnd_split (trimStart s)) as (post & Ht & Hpost).
  exists pre, post. split; [|done]. unfold trim. by rewrite <- Ht.
Qed.

Lemma length_trim (s : jsstring) : (length (trim s) ≤ length s)%nat.
Proof.
  destruct (trim_split s) as (pre & post & Hs & _).
  rewrite Hs at 2. rewrite !length_app. lia.
Qed.

Lemma trim_sublist (s : jsstring) : trim s `sublist_of` s.
Proof.
  destruct (trim_split s) as (pre & post & Hs & _). rewrite Hs at 2.
  by apply sublist_inserts_l, sublist_inserts_r.
Qed.

(** ** The outcomes of the actions *)

Lemma validate_inr (formData : FormData) (question : jsstring)
    (uniqueOptions : list jsstring) :
  validate formData = inr (question, uniqueOptions) →
  fd_question formData = Some question
  ∧ trim question ≠ [] ∧ (length question ≤ 500)%nat
  ∧ uniqueOptions = trim <$> filter_Boolean (fd_options formData)
  ∧ (2 ≤ length uniqueOptions ≤ 10)%nat
  ∧ (∀ o, o ∈ uniqueOptions → o ≠ [] ∧ trim o = o ∧ (length o ≤ 200)%nat)
  ∧ NoDup uniqueOptions.
Proof.
  unfold validate.
  generalize (filter_Boolean (fd_options formData)) as opts. intros opts.
  destruct (fd_question formData) as [q|]; [|done].
  destruct (bool_decide (q = []) || (length (trim q) =? 0)%nat) eqn:Hblank; [done|].
  assert (trim q ≠ []) as Hq.
  { intros Hnil. apply blank_test in Hnil. congruence. }
  destruct (500 <? length q)%nat eqn:Hlong; [done|]. apply Nat.ltb_ge in Hlong.
  destruct (length opts <? 2)%nat eqn:Hfew; [done|]. apply Nat.ltb_ge in Hfew.
  destruct (10 <? length opts)%nat eqn:Hmany; [done|]. apply Nat.ltb_ge in Hmany.
  destruct (check_options 0 opts) as [e|] eqn:Hcheck; [done|].
  pose proof (proj1 (check_options_None 0 opts) Hcheck) as Hall.
  destruct (negb (length (new_Set (trim <$> opts)) =? length opts)%nat) eqn:Hdup;
    [done|].
  apply negb_false_iff, Nat.eqb_eq in Hdup.
  assert (NoDup (trim <$> opts)) as Hnd.
  { apply new_Set_length_iff. by rewrite length_fmap. }
  rewrite (new_Set_NoDup _ Hnd). intros [= <- <-].
  rewrite length_fmap. split_and!; try done.
  intros o Ho. apply list_elem_of_fmap in Ho as (o' & -> & Ho').
  destruct (Hall o' Ho') as [Hne Hle]. split_and!; [done|apply trim_idemp|done].
Qed.

Lemma validated_poll_wf formData question uniqueOptions id uid active t :
  validate formData = inr (question, uniqueOptions) →
  poll_wf (mkPoll id uid (trim question) uniqueOptions active t).
Proof.
  intros Hv. apply validate_inr in Hv as (_ & Hq & Hlen & _ & Hn & Hall & Hnd).
  unfold poll_wf. simpl. split_and!; try done; try lia.
  - apply trim_idemp.
  - pose proof (length_trim question). lia.
Qed.

Lemma createPoll_cases (env : Env) (db : Store) (formData : FormData) :
  (∃ e, createPoll env db formData = (Some e, db))
  ∨ ∃ uid question uniqueOptions,
      validate formData = inr (question, uniqueOptions)
      ∧ user env = Some uid
      ∧ createPoll env db formData
        = (None, insert_poll env uid (trim question) uniqueOptions true db).
Proof.
  unfold createPoll, write.
  destruct (validate formData) as [e|[question uniqueOptions]]; [eauto|].
  destruct (userError env); [eauto|].
  destruct (user env) as [uid|]; [|eauto].
  destruct (storeError env); [eauto|]. right. by exists uid, question, uniqueOptions.
Qed.

Lemma updatePoll_with_cases finish env db pollId formData :
  (∃ e, updatePoll_with finish env db pollId formData = (Some e, db))
  ∨ (∃ err, updatePoll_with finish env db pollId formData = (finish (Some err), db))
  ∨ ∃ uid question uniqueOptions,
      validate formData = inr (question, uniqueOptions)
      ∧ user env = Some uid
      ∧ updatePoll_with finish env db pollId formData
        = (finish None,
           update_polls (retitle (trim question) uniqueOptions) pollId uid db).
Proof.
  unfold updatePoll_with, write.
  destruct (validate formData) as [e|[question uniqueOptions]]; [eauto|].
  destruct (userError env); [eauto|].
  destruct (user env) as [uid|]; [|eauto].
  destruct (single _) as [[owner|] [msg|]]; simpl; eauto.
  case_decide; [eauto|].
  destruct (storeError env); [eauto|].
  right. right. by exists uid, question, uniqueOptions.
Qed.

Lemma deletePoll_cases (env : Env) (db : Store) (id : PollId) :
  (∃ e, deletePoll env db id = (Some e, db))
  ∨ ∃ uid, user env = Some uid
      ∧ deletePoll env db id = (None, update_polls deactivate id uid db).
Proof.
  unfold deletePoll, write.
  destruct (userError env); [eauto|].
  destruct (user env) as [uid|]; [|eauto].
  destruct (single _) as [[owner|] [msg|]]; simpl; eauto.
  case_decide; [eauto|].
  destruct (storeError env); eauto.
Qed.

Lemma submitVote_cases (env : Env) (db : Store) (pollId : PollId) (optionIndex : Z) :
  (∃ e, submitVote env db pollId optionIndex = (Some e, db))
  ∨ (submitVote env db pollId optionIndex
       = (None, insert_vote (mkVote pollId (user env) optionIndex) db)
     ∧ ∃ row, row ∈ polls db ∧ poll_id row = pollId
         ∧ 0 ≤ optionIndex < Z.of_nat (length (options row))).
Proof.
  unfold submitVote, write.
  destruct (filter (λ p, poll_id p = pollId) (polls db)) as [|row [|row' l]] eqn:Hf;
    simpl; [eauto| |eauto].
  assert (row ∈ filter (λ p, poll_id p = pollId) (polls db)) as Hrow
    by (rewrite Hf; left).
  apply list_elem_of_filter in Hrow as [Hid Hrow].
  destruct (_ || _) eqn:Hrange; [eauto|].
  apply orb_false_iff in Hrange as [Hlo Hhi].
  apply Z.ltb_ge in Hlo. apply Z.leb_gt in Hhi.
  destruct (match user env with Some _ => _ | None => _ end); [eauto|].
  destruct (storeError env); [eauto|].
  right. split; [done|]. exists row. split_and!; done.
Qed.

(** ** Errors leave the store as it is *)

(** X1. Whenever an action answers an error, the store is exactly as it was
    before the call: no action applies a part of its write. *)
Theorem error_leaves_store (env : Env) (c : Call) (db : Store) (e : Error) :
  (perform env c db).1 = Some e → (perform env c db).2 = db.
Proof.
  destruct c as [fd|p fd|p fd|p|p i]; simpl.
  - destruct (createPoll_cases env db fd) as [[e' ->]|(u & q & o & _ & _ & ->)]; done.
  - unfold updatePoll.
    destruct (updatePoll_with_cases (λ _, None) env db p fd)
      as [[e' ->]|[[err ->]|(u & q & o & _ & _ & ->)]]; done.
  - unfold SecondCopy.updatePoll.
    destruct (updatePoll_with_cases (λ err, StoreMessage <$> err) env db p fd)
      as [[e' ->]|[[err ->]|(u & q & o & _ & _ & ->)]]; done.
  - destruct (deletePoll_cases env db p) as [[e' ->]|(u & _ & ->)]; done.
  - destruct (submitVote_cases env db p i) as [[e' ->]|[-> _]]; done.
Qed.

Lemma error_leaves_store_witness :
  (perform bob (DeletePoll "0") one_poll).2 = one_poll.
Proof.
  apply (error_leaves_store bob (DeletePoll "0") one_poll UnauthorizedDelete).
  reflexivity.
Defined.

(** ** Rows of other users *)

(** X2. No call changes a poll row of somebody else: a row whose creator is
    not the requester of the call (in particular every row, when the
    requester is anonymous) is found unchanged at its place afterwards. *)
Theorem foreign_rows_untouched (env : Env) (c : Call) (db : Store) (i : nat)
    (row : Poll) :
  polls db !! i = Some row → user env ≠ Some (created_by row) →
  polls (perform env c db).2 !! i = Some row.
Proof.
  intros Hi Hne.
  assert (∀ change id uid, user env = Some uid →
            polls (update_polls change id uid db) !! i = Some row) as Hupd.
  { intros change id uid Hu. simpl. rewrite list_lookup_fmap, Hi. simpl.
    rewrite decide_False; [done|]. intros [_ Hown]. apply Hne. by rewrite Hu, Hown. }
  destruct c as [fd|p fd|p fd|p|p j]; simpl.
  - destruct (createPoll_cases env db fd) as [[e' ->]|(u & q & o & _ & _ & ->)];
      [done|]. simpl. by apply lookup_app_l_Some.
  - unfold updatePoll.
    destruct (updatePoll_with_cases (λ _, None) env db p fd)
      as [[e' ->]|[[err ->]|(u & q & o & _ & Hu & ->)]]; [done..|]. by apply Hupd.
  - unfold SecondCopy.updatePoll.
    destruct (updatePoll_with_cases (λ err, StoreMessage <$> err) env db p fd)
      as [[e' ->]|[[err ->]|(u & q & o & _ & Hu & ->)]]; [done..|]. by apply Hupd.
  - destruct (deletePoll_cases env db p) as [[e' ->]|(u & Hu & ->)]; [done|].
    by apply Hupd.
  - destruct (submitVote_cases env db p j) as [[e' ->]|[-> _]]; done.
Qed.

Lemma foreign_rows_untouched_witness :
  polls (perform bob (DeletePoll "0") one_poll).2 !! 0%nat = Some the_poll.
Proof.
  apply (foreign_rows_untouched bob (DeletePoll "0") one_poll 0 the_poll).
  - reflexivity.
  - discriminate.
Defined.

(** ** What sequential histories keep *)

Lemma update_polls_elem change id uid db p :
  p ∈ polls (update_polls change id uid db) →
  ∃ q, q ∈ polls db ∧ (p = q ∨ p = change q).
Proof.
  simpl. intros Hp. apply list_elem_of_fmap in Hp as (q & -> & Hq).
  exists q. split; [done|]. case_decide; auto.
Qed.

Lemma perform_history_inv (env : Env) (c : Call) (db : Store) :
  history_inv db → history_inv (perform env c db).2.
Proof.
  intros [Hpolls Hvotes].
  assert (∀ fd q uo id uid, validate fd = inr (q, uo) →
            history_inv (update_polls (retitle (trim q) uo) id uid db)) as Hupd.
  { intros fd q uo id uid Hv. split; [|done]. intros p Hp.
    apply update_polls_elem in Hp as (r & Hr & [->| ->]); [by apply Hpolls|].
    by eapply validated_poll_wf. }
  destruct c as [fd|p fd|p fd|p|p i]; simpl.
  - destruct (createPoll_cases env db fd) as [[e' ->]|(u & q & o & Hv & _ & ->)];
      [done|]. split; [|done]. intros r Hr. simpl in Hr.
    apply elem_of_app in Hr as [Hr|Hr]; [by apply Hpolls|].
    apply list_elem_of_singleton in Hr as ->. by eapply validated_poll_wf.
  - unfold updatePoll.
    destruct (updatePoll_with_cases (λ _, None) env db p fd)
      as [[e' ->]|[[err ->]|(u & q & o & Hv & _ & ->)]]; [done..|]. by eapply Hupd.
  - unfold SecondCopy.updatePoll.
    destruct (updatePoll_with_cases (λ err, StoreMessage <$> err) env db p fd)
      as [[e' ->]|[[err ->]|(u & q & o & Hv & _ & ->)]]; [done..|]. by eapply Hupd.
  - destruct (deletePoll_cases env db p) as [[e' ->]|(u & _ & ->)]; [done|].
    split; [|done]. intros r Hr.
    apply update_polls_elem in Hr as (r' & Hr' & [->| ->]); exact (Hpolls r' Hr').
  - destruct (submitVote_cases env db p i)
      as [[e' ->]|[-> (row & Hrow & _ & Hi)]]; [done|].
    split; [done|]. intros v Hv. simpl in Hv.
    apply elem_of_app in Hv as [Hv|Hv]; [by apply Hvotes|].
    apply list_elem_of_singleton in Hv as ->. simpl.
    destruct (Hpolls row Hrow) as (_ & _ & _ & Hn & _). lia.
Qed.

Lemma run_history_inv (history : list (Env * Call)) (db : Store) :
  history_inv db → history_inv (run history db).
Proof.
  revert db. induction history as [|[env c] history IH]; intros db Hinv; [done|].
  simpl. apply IH. by apply perform_history_inv.
Qed.

Lemma history_inv_empty : history_inv empty_store.
Proof. split; intros x Hx; by apply elem_of_nil in Hx. Qed.

(** X3. Every poll stored after a sequential history of calls on the
    empty store satisfies the data model: its title is trimmed, not empty
    and at most 500 code units long; it has between 2 and 10 options, each
    trimmed, not empty and at most 200 code units long, and no two equal. *)
Theorem stored_polls_well_formed (history : list (Env * Call)) (p : Poll) :
  p ∈ polls (run history empty_store) → poll_wf p.
Proof.
  intros Hp. by apply (run_history_inv history empty_store history_inv_empty).
Qed.

Lemma stored_polls_well_formed_witness : poll_wf the_poll.
Proof.
  apply (stored_polls_well_formed alice_voted the_poll). vm_compute. left.
Defined.

(** X4. After a sequential history of calls on the empty store, poll
    identifiers are unique, every vote refers to a stored poll and carries
    an option index between 0 and 9, and no user has more than one vote on
    a poll. *)
Theorem stored_votes_well_formed (history : list (Env * Call)) :
  let db := run history empty_store in
  NoDup (poll_id <$> polls db)
  ∧ (∀ v, v ∈ votes db →
       vote_poll_id v ∈ poll_id <$> polls db ∧ 0 ≤ option_index v < 10)
  ∧ (∀ p u, (length (votes_of db p u) ≤ 1)%nat).
Proof.
  intros db.
  destruct (run_ok history empty_store store_ok_empty) as (Hpk & Href & Hone).
  destruct (run_history_inv history empty_store history_inv_empty) as [_ Hidx].
  split_and!; [done| |].
  - intros v Hv. split; [by apply Href|by apply Hidx].
  - done.
Qed.

Lemma same_poll_refl (p : Poll) : same_poll p p.
Proof. by unfold same_poll. Qed.

Lemma same_poll_trans (p q r : Poll) : same_poll p q → same_poll q r → same_poll p r.
Proof.
  intros (H1 & H2 & H3 & H4) (H1' & H2' & H3' & H4'). unfold same_poll.
  split_and!; try congruence. auto.
Qed.

Lemma perform_same_poll (env : Env) (c : Call) (db : Store) (i : nat) (row : Poll) :
  polls db !! i = Some row →
  ∃ row', polls (perform env c db).2 !! i = Some row' ∧ same_poll row row'.
Proof.
  intros Hi.
  assert (∀ change id uid, (∀ p, same_poll p (change p)) →
            ∃ row', polls (update_polls change id uid db) !! i = Some row'
                    ∧ same_poll row row') as Hupd.
  { intros change id uid Hsame. simpl. rewrite list_lookup_fmap, Hi. simpl.
    eexists. split; [done|]. case_decide; [apply Hsame|apply same_poll_refl]. }
  assert (∃ row', polls db !! i = Some row' ∧ same_poll row row') as Hsame
    by (exists row; split; [done|apply same_poll_refl]).
  destruct c as [fd|p fd|p fd|p|p j]; simpl.
  - destruct (createPoll_cases env db fd) as [[e' ->]|(u & q & o & _ & _ & ->)];
      [done|]. exists row. split; [|apply same_poll_refl].
    simpl. by apply lookup_app_l_Some.
  - unfold updatePoll.
    destruct (updatePoll_with_cases (λ _, None) env db p fd)
      as [[e' ->]|[[err ->]|(u & q & o & _ & _ & ->)]]; [done..|].
    by apply Hupd.
  - unfold SecondCopy.updatePoll.
    destruct (updatePoll_with_cases (λ err, StoreMessage <$> err) env db p fd)
      as [[e' ->]|[[err ->]|(u & q & o & _ & _ & ->)]]; [done..|].
    by apply Hupd.
  - destruct (deletePoll_cases env db p) as [[e' ->]|(u & _ & ->)]; [done|].
    by apply Hupd.
  - destruct (submitVote_cases env db p j) as [[e' ->]|[-> _]]; done.
Qed.

(** X5. No sequence of calls removes a poll row, moves it, or changes its
    identifier, its creator or its creation time, and none reactivates a
    soft-deleted poll: a row stored at a place is, after any further
    history, at the same place with these columns unchanged, and inactive
    if it was inactive. *)
Theorem history_keeps_rows (history : list (Env * Call)) (db : Store) (i : nat)
    (row : Poll) :
  polls db !! i = Some row →
  ∃ row', polls (run history db) !! i = Some row'
    ∧ poll_id row' = poll_id row ∧ created_by row' = created_by row
    ∧ created_at row' = created_at row
    ∧ (is_active row = false → is_active row' = false).
Proof.
  revert db row. induction history as [|[env c] history IH]; intros db row Hi.
  - exists row. by split_and!.
  - simpl. destruct (perform_same_poll env c db i row Hi) as (r1 & H1 & Hs1).
    destruct (IH _ _ H1) as (r2 & H2 & Hs2). exists r2. split; [done|].
    by apply (same_poll_trans row r1 r2).
Qed.

Lemma history_keeps_rows_witness :
  ∃ row', polls (run [(alice, DeletePoll "0"); (alice, CreatePoll pick_one)] one_poll)
            !! 0%nat = Some row'
    ∧ poll_id row' = "0" ∧ created_by row' = "alice" ∧ created_at row' = 1%nat
    ∧ (true = false → is_active row' = false).
Proof.
  apply (history_keeps_rows [(alice, DeletePoll "0"); (alice, CreatePoll pick_one)]
           one_poll 0 the_poll).
  reflexivity.
Defined.

Lemma perform_votes_prefix (env : Env) (c : Call) (db : Store) :
  votes db `prefix_of` votes (perform env c db).2.
Proof.
  destruct c as [fd|p fd|p fd|p|p j]; simpl.
  - by destruct (createPoll_cases env db fd) as [[e' ->]|(u & q & o & _ & _ & ->)].
  - unfold updatePoll.
    by destruct (updatePoll_with_cases (λ _, None) env db p fd)
      as [[e' ->]|[[err ->]|(u & q & o & _ & _ & ->)]].
  - unfold SecondCopy.updatePoll.
    by destruct (updatePoll_with_cases (λ err, StoreMessage <$> err) env db p fd)
      as [[e' ->]|[[err ->]|(u & q & o & _ & _ & ->)]].
  - by destruct (deletePoll_cases env db p) as [[e' ->]|(u & _ & ->)].
  - destruct (submitVote_cases env db p j) as [[e' ->]|[-> _]]; [done|].
    simpl. by apply prefix_app_r.
Qed.

(** X6. Votes are only ever appended: after any sequence of calls the
    votes table starts with the rows it held before, unchanged and in
    order, and only [submitVote] adds to it. *)
Theorem history_appends_votes (history : list (Env * Call)) (db : Store) :
  votes db `prefix_of` votes (run history db)
  ∧ (Forall (λ ec, ∀ p i, ec.2 ≠ SubmitVote p i) history →
     votes (run history db) = votes db).
Proof.
  revert db. induction history as [|[env c] history IH]; intros db; [done|].
  simpl. destruct (IH (perform env c db).2) as [IH1 IH2]. split.
  - etrans; [apply perform_votes_prefix|done].
  - intros Hno. apply Forall_cons in Hno as [Hc Hno]. rewrite IH2 by done.
    simpl in Hc. destruct c as [fd|p fd|p fd|p|p j]; simpl.
    + by destruct (createPoll_cases env db fd) as [[e' ->]|(u & q & o & _ & _ & ->)].
    + unfold updatePoll.
      by destruct (updatePoll_with_cases (λ _, None) env db p fd)
        as [[e' ->]|[[err ->]|(u & q & o & _ & _ & ->)]].
    + unfold SecondCopy.updatePoll.
      by destruct (updatePoll_with_cases (λ err, StoreMessage <$> err) env db p fd)
        as [[e' ->]|[[err ->]|(u & q & o & _ & _ & ->)]].
    + by destruct (deletePoll_cases env db p) as [[e' ->]|(u & _ & ->)].
    + by destruct (Hc p j).
Qed.

Lemma history_appends_votes_witness :
  votes votes_0_0_1
    `prefix_of` votes (run [(alice, DeletePoll "0"); (bob, SubmitVote "0" 1)]
                         votes_0_0_1)
  ∧ votes (run [(alice, DeletePoll "0")] votes_0_0_1) = votes votes_0_0_1.
Proof.
  split.
  - apply (history_appends_votes [(alice, DeletePoll "0"); (bob, SubmitVote "0" 1)]
             votes_0_0_1).
  - apply (history_appends_votes [(alice, DeletePoll "0")] votes_0_0_1).
    repeat constructor. simpl. discriminate.
Defined.

(** ** Updating, and polls that are not there *)

Lemma update_polls_row change (db : Store) (row : Poll) (u : UserId) :
  polls_pkey db → row ∈ polls db → created_by row = u →
  polls (update_polls change (poll_id row) u db)
  = (λ q, if decide (q = row) then change row else q) <$> polls db.
Proof.
  intros Hpk Hrow Hown. simpl. apply list_fmap_ext. intros i q Hi.
  apply list_elem_of_lookup_2 in Hi.
  destruct (decide (q = row)) as [->|Hne]; [by rewrite decide_True|].
  rewrite decide_False; [done|]. intros [Hid _]. by apply Hne, (pkey_inj db).
Qed.

(** X7. For an active poll of the authenticated requester, a form that
    passes validation and a store that takes the update, [updatePoll]
    (either copy) succeeds and overwrites the title with the trimmed
    question and the options with the trimmed, non-empty submitted options;
    the row keeps its identifier, creator, active flag and creation time,
    every other row and all votes stay as they were, and [getPollById] then
    answers the rewritten row. *)
Theorem updatePoll_overwrites (env : Env) (db : Store) (row : Poll) (u : UserId)
    (formData : FormData) (question : jsstring) (uniqueOptions : list jsstring) :
  polls_pkey db → row ∈ polls db → is_active row = true → created_by row = u →
  user env = Some u → userError env = None → storeError env = None →
  validate formData = inr (question, uniqueOptions) →
  let row' :=
    mkPoll (poll_id row) (created_by row) (trim question)
      (trim <$> filter_Boolean (fd_options formData)) true (created_at row) in
  let db' :=
    {| polls := (λ q, if decide (q = row) then row' else q) <$> polls db;
       votes := votes db |} in
  updatePoll env db (poll_id row) formData = (None, db')
  ∧ SecondCopy.updatePoll env db (poll_id row) formData = (None, db')
  ∧ getPollById db' (poll_id row) = mkPollResult (Some row') None.
Proof.
  intros Hpk Hrow Hact Hown Hu Hue Hse Hv row' db'.
  pose proof (validate_inr _ _ _ Hv) as (_ & _ & _ & Huo & _).
  assert (update_polls (retitle (trim question) uniqueOptions) (poll_id row) u db
          = db') as Hdb.
  { transitivity
      {| polls :=
           polls (update_polls (retitle (trim question) uniqueOptions)
                    (poll_id row) u db);
         votes := votes db |}; [done|].
    rewrite update_polls_row by done. unfold db', row', retitle.
    by rewrite Hact, Huo. }
  assert (∀ finish, finish None = None →
            updatePoll_with finish env db (poll_id row) formData = (None, db'))
    as Hupd.
  { intros finish Hfin. unfold updatePoll_with, write.
    rewrite Hv, Hu, Hue, select_active_poll, Hse by done. simpl.
    rewrite decide_False by (intros H; by apply H). by rewrite Hfin, Hdb. }
  split_and!; [by apply Hupd..|].
  assert (polls_pkey db') as Hpk'.
  { rewrite <- Hdb. unfold polls_pkey. by rewrite update_polls_ids. }
  assert (row' ∈ polls db') as Hrow'.
  { simpl. apply list_elem_of_fmap. exists row. by rewrite decide_True. }
  pose proof (select_active_poll db' row' Hpk' Hrow' eq_refl) as Hsel.
  unfold getPollById. simpl in Hsel |- *. by rewrite Hsel.
Qed.

Lemma updatePoll_overwrites_witness :
  updatePoll alice one_poll "0" (mkFormData (Some (js " Which? ")) [js "X "; []; js "Y"])
  = (None, {| polls := [mkPoll "0" "alice" (js "Which?") [js "X"; js "Y"] true 1];
              votes := [] |}).
Proof.
  assert (polls_pkey one_poll) as Hpk by apply NoDup_singleton.
  assert (the_poll ∈ polls one_poll) as Hrow by left.
  destruct (updatePoll_overwrites alice one_poll the_poll "alice"
              (mkFormData (Some (js " Which? ")) [js "X "; []; js "Y"])
              (js " Which? ") [js "X"; js "Y"]
              Hpk Hrow eq_refl eq_refl eq_refl eq_refl eq_refl eq_refl)
    as (H & _ & _).
  exact H.
Defined.

(** X8. When no active poll carries the identifier (none is stored, or it
    is soft-deleted), an authenticated [deletePoll] and an authenticated
    [updatePoll] with a valid form both fail with "Poll not found",
    [getPollById] answers no poll and an error, and the store is left as it
    was. *)
Theorem missing_poll_not_found (env : Env) (db : Store) (id : PollId) (u : UserId)
    (formData : FormData) :
  (∀ row, row ∈ polls db → poll_id row = id → is_active row = false) →
  user env = Some u → userError env = None →
  deletePoll env db id = (Some PollNotFound, db)
  ∧ ((∃ v, validate formData = inr v) →
     updatePoll env db id formData = (Some PollNotFound, db)
     ∧ SecondCopy.updatePoll env db id formData = (Some PollNotFound, db))
  ∧ res_poll (getPollById db id) = None
  ∧ res_poll_error (getPollById db id) ≠ None.
Proof.
  intros Hnone Hu Hue.
  assert (filter (λ p, is_active p = true) (filter (λ p, poll_id p = id) (polls db))
          = []) as Hsel.
  { apply no_elem_nil. intros q Hq. apply list_elem_of_filter in Hq as [Hact Hq].
    apply list_elem_of_filter in Hq as [Hid Hq]. rewrite (Hnone q) in Hact; done. }
  split_and!.
  - unfold deletePoll. by rewrite Hu, Hue, Hsel.
  - intros [[question uniqueOptions] Hv].
    unfold updatePoll, SecondCopy.updatePoll, updatePoll_with.
    by rewrite Hv, Hu, Hue, Hsel.
  - unfold getPollById. by rewrite Hsel.
  - unfold getPollById. by rewrite Hsel.
Qed.

Lemma missing_poll_not_found_witness :
  deletePoll alice deleted_poll "0" = (Some PollNotFound, deleted_poll)
  ∧ updatePoll alice deleted_poll "0" pick_one = (Some PollNotFound, deleted_poll)
  ∧ res_poll (getPollById deleted_poll "0") = None.
Proof.
  destruct (missing_poll_not_found alice deleted_poll "0" "alice" pick_one)
    as (Hd & Hupd & Hget & _).
  - intros row Hrow _. apply list_elem_of_singleton in Hrow. by subst row.
  - reflexivity.
  - reflexivity.
  - split_and!; [exact Hd| |exact Hget].
    apply Hupd. by exists (js "Pick one", [js "A"; js "B"]).
Defined.

Lemma deletePoll_success (env : Env) (db : Store) (id : PollId) :
  (deletePoll env db id).1 = None →
  ∃ uid row, user env = Some uid ∧ row ∈ polls db ∧ poll_id row = id
    ∧ is_active row = true ∧ created_by row = uid
    ∧ (deletePoll env db id).2 = update_polls deactivate id uid db.
Proof.
  unfold deletePoll, write.
  destruct (userError env); [done|].
  destruct (user env) as [uid|]; [|done].
  destruct (filter (λ p, is_active p = true) _) as [|row [|row' l]] eqn:Hf;
    simpl; [done| |done].
  assert (row ∈ filter (λ p, is_active p = true)
            (filter (λ p, poll_id p = id) (polls db))) as Hrow
    by (rewrite Hf; left).
  apply list_elem_of_filter in Hrow as [Hact Hrow].
  apply list_elem_of_filter in Hrow as [Hid Hrow].
  case_decide as Hown; [done|].
  destruct (storeError env); [done|]. intros _.
  exists uid, row. split_and!; try done.
Qed.

(** X9. Deleting is not repeatable: under the primary key of [polls],
    after a [deletePoll] that succeeded, a further authenticated
    [deletePoll] of the same identifier, by anybody, fails with "Poll not
    found" and changes nothing. *)
Theorem deletePoll_twice (env env' : Env) (db : Store) (id : PollId) (u' : UserId) :
  polls_pkey db → (deletePoll env db id).1 = None →
  user env' = Some u' → userError env' = None →
  deletePoll env' (deletePoll env db id).2 id
  = (Some PollNotFound, (deletePoll env db id).2).
Proof.
  intros Hpk Hok Hu' Hue'.
  destruct (deletePoll_success env db id Hok)
    as (uid & row & Hu & Hrow & Hid & Hact & Hown & Hdb).
  rewrite Hdb. unfold deletePoll at 1. rewrite Hu', Hue'.
  rewrite (no_elem_nil (filter (λ p, is_active p = true) _)); [done|].
  intros q Hq. apply list_elem_of_filter in Hq as [Hact' Hq].
  apply list_elem_of_filter in Hq as [Hid' Hq].
  subst id. rewrite update_polls_row in Hq by done.
  apply list_elem_of_fmap in Hq as (q' & -> & Hq').
  destruct (decide (q' = row)) as [->|Hne]; [done|].
  by apply Hne, (pkey_inj db).
Qed.

Lemma deletePoll_twice_witness :
  deletePoll bob (deletePoll alice one_poll "0").2 "0"
  = (Some PollNotFound, (deletePoll alice one_poll "0").2).
Proof.
  apply (deletePoll_twice alice bob one_poll "0" "bob").
  - apply NoDup_singleton.
  - reflexivity.
  - reflexivity.
  - reflexivity.
Defined.

(** ** Reading polls *)

Lemma insert_newest_first_perm (p : Poll) (l : list Poll) :
  insert_newest_first p l ≡ₚ p :: l.
Proof.
  induction l as [|q l IH]; simpl; [done|].
  destruct (created_at q <? created_at p)%nat; [done|].
  rewrite IH. apply Permutation_swap.
Qed.

Lemma order_created_at_desc_perm (l : list Poll) : order_created_at_desc l ≡ₚ l.
Proof.
  induction l as [|q l IH]; [done|]. unfold order_created_at_desc in *. simpl.
  by rewrite insert_newest_first_perm, IH.
Qed.

Lemma insert_newest_first_sorted (p : Poll) (l : list Poll) :
  StronglySorted newer_or_equal l →
  StronglySorted newer_or_equal (insert_newest_first p l).
Proof.
  induction 1 as [|q l Hl IH Hq]; simpl.
  - repeat constructor.
  - destruct (created_at q <? created_at p)%nat eqn:Hlt.
    + apply Nat.ltb_lt in Hlt. constructor; [by constructor|].
      constructor; [unfold newer_or_equal; lia|].
      eapply Forall_impl; [exact Hq|]. unfold newer_or_equal. intros r Hr. lia.
    + apply Nat.ltb_ge in Hlt. constructor; [done|].
      rewrite insert_newest_first_perm. by constructor.
Qed.

Lemma order_created_at_desc_sorted (l : list Poll) :
  StronglySorted newer_or_equal (order_created_at_desc l).
Proof.
  induction l as [|q l IH]; [constructor|].
  by apply insert_newest_first_sorted.
Qed.

(** X10. For a signed-in requester [getUserPolls] answers without error
    exactly the stored polls that the requester created and that are
    active, each as often as it is stored, ordered by creation time with
    the newest first. *)
Theorem getUserPolls_own_active_newest_first (env : Env) (db : Store) (u : UserId) :
  user env = Some u →
  res_polls_error (getUserPolls env db) = None
  ∧ res_polls (getUserPolls env db)
    ≡ₚ filter (λ p, is_active p = true) (filter (λ p, created_by p = u) (polls db))
  ∧ (∀ p, p ∈ res_polls (getUserPolls env db)
          ↔ p ∈ polls db ∧ created_by p = u ∧ is_active p = true)
  ∧ StronglySorted newer_or_equal (res_polls (getUserPolls env db)).
Proof.
  intros Hu. unfold getUserPolls. rewrite Hu. simpl. split_and!.
  - done.
  - apply order_created_at_desc_perm.
  - intros p. rewrite elem_of_order_created_at_desc, !list_elem_of_filter. tauto.
  - apply order_created_at_desc_sorted.
Qed.

Lemma getUserPolls_own_active_newest_first_witness :
  res_polls (getUserPolls alice (run [(bob, CreatePoll pick_one)] one_poll))
  ≡ₚ [the_poll].
Proof.
  destruct (getUserPolls_own_active_newest_first alice
              (run [(bob, CreatePoll pick_one)] one_poll) "alice" eq_refl)
    as (_ & Hperm & _).
  exact Hperm.
Defined.

(** X11. [getPollById] only ever answers a stored, active row with the
    requested identifier, and answers either a poll or an error, never
    both or neither; under the primary key of [polls] it answers every
    stored active poll when asked for its identifier. *)
Theorem getPollById_sound_complete (db : Store) (id : PollId) :
  (∀ row, res_poll (getPollById db id) = Some row →
          row ∈ polls db ∧ poll_id row = id ∧ is_active row = true)
  ∧ (res_poll (getPollById db id) = None ↔ res_poll_error (getPollById db id) ≠ None)
  ∧ (polls_pkey db →
     ∀ row, row ∈ polls db → poll_id row = id → is_active row = true →
            getPollById db id = mkPollResult (Some row) None).
Proof.
  unfold getPollById. split_and!.
  - destruct (filter (λ p, is_active p = true) _) as [|r [|r' l]] eqn:Hf;
      simpl; [done| |done].
    intros row [= <-].
    assert (r ∈ filter (λ p, is_active p = true)
              (filter (λ p, poll_id p = id) (polls db))) as Hr
      by (rewrite Hf; left).
    apply list_elem_of_filter in Hr as [Hact Hr].
    apply list_elem_of_filter in Hr as [Hid Hr]. done.
  - destruct (filter (λ p, is_active p = true) _) as [|r [|r' l]]; simpl;
      split; done.
  - intros Hpk row Hrow <- Hact. by rewrite select_active_poll.
Qed.

Lemma getPollById_sound_complete_witness :
  getPollById one_poll "0" = mkPollResult (Some the_poll) None.
Proof.
  destruct (getPollById_sound_complete one_poll "0") as (_ & _ & H).
  apply H.
  - apply NoDup_singleton.
  - left.
  - reflexivity.
  - reflexivity.
Defined.

(** ** Votes and totals *)

(** X12. A [submitVote] that succeeds appends exactly one vote row, for
    the given poll, the requester (or nobody) and the given index, for a
    stored poll that has an option of that index; [totalVotes] of that poll
    grows by one, the totals of all other polls and table [polls] stay as
    they were. *)
Theorem submitVote_adds_one (env : Env) (db : Store) (pollId : PollId)
    (optionIndex : Z) :
  (submitVote env db pollId optionIndex).1 = None →
  let db' := (submitVote env db pollId optionIndex).2 in
  votes db' = votes db ++ [mkVote pollId (user env) optionIndex]
  ∧ polls db' = polls db
  ∧ (∃ row, row ∈ polls db ∧ poll_id row = pollId
       ∧ 0 ≤ optionIndex < Z.of_nat (length (options row)))
  ∧ totalVotes (getVoteCounts db' pollId) = S (totalVotes (getVoteCounts db pollId))
  ∧ (∀ p, p ≠ pollId → getVoteCounts db' p = getVoteCounts db p).
Proof.
  intros Hok db'. subst db'.
  destruct (submitVote_cases env db pollId optionIndex) as [[e He]|[He Hrow]].
  { rewrite He in Hok. done. }
  rewrite He. simpl. split_and!; try done.
  - rewrite filter_app, length_app, filter_cons_True by done. simpl. lia.
  - intros p Hp. unfold getVoteCounts. simpl.
    rewrite filter_app, filter_cons_False by (simpl; congruence).
    by rewrite filter_nil, app_nil_r.
Qed.

Lemma submitVote_adds_one_witness :
  totalVotes (getVoteCounts (submitVote bob votes_0_0_1 "0" 1).2 "0") = 4%nat.
Proof.
  destruct (submitVote_adds_one bob votes_0_0_1 "0" 1 eq_refl) as (_ & _ & _ & H & _).
  exact H.
Defined.

(** ** The number in an option error *)

Lemma check_options_first (i : nat) (opts : list jsstring) (e : Error) :
  check_options i opts = Some e →
  ∃ k o, opts !! k = Some o
    ∧ (e = OptionEmpty (i + k + 1) ∧ trim o = []
       ∨ e = OptionTooLong (i + k + 1) ∧ trim o ≠ [] ∧ (200 < length (trim o))%nat)
    ∧ ∀ j o', (j < k)%nat → opts !! j = Some o' →
              trim o' ≠ [] ∧ (length (trim o') ≤ 200)%nat.
Proof.
  revert i. induction opts as [|o opts IH]; intros i; simpl; [done|].
  destruct (bool_decide (trim o = []) || (length (trim o) =? 0)%nat) eqn:Hblank.
  { intros [= <-]. exists 0%nat, o. split_and!; [done| |lia].
    left. rewrite Nat.add_0_r. split; [done|]. by apply empty_test. }
  assert (trim o ≠ []) as Hne.
  { intros Hnil. apply empty_test in Hnil. congruence. }
  destruct (200 <? length (trim o))%nat eqn:Hlong.
  { intros [= <-]. exists 0%nat, o. apply Nat.ltb_lt in Hlong.
    split_and!; [done| |lia]. right. by rewrite Nat.add_0_r. }
  apply Nat.ltb_ge in Hlong. intros He.
  destruct (IH _ He) as (k & o' & Hk & Hbad & Hgood).
  exists (S k), o'. split_and!; [done| |].
  - by replace (i + S k + 1)%nat with (S i + k + 1)%nat by lia.
  - intros [|j] o'' Hj; simpl; [by intros [= <-]|]. apply Hgood. lia.
Qed.

(** X13. When validation rejects an option, the number in the message is
    the 1-based position of the first blank or over-long option among the
    submitted options that are not the empty string: that option is blank
    (message "cannot be empty") or has more than 200 code units after
    trimming (message "is too long"), and all options before it are fine. *)
Theorem option_error_names_first (formData : FormData) (e : Error) (n : nat) :
  validate formData = inl e → e = OptionEmpty n ∨ e = OptionTooLong n →
  ∃ o, (1 ≤ n)%nat
    ∧ filter_Boolean (fd_options formData) !! (n - 1)%nat = Some o
    ∧ (e = OptionEmpty n → trim o = [])
    ∧ (e = OptionTooLong n → trim o ≠ [] ∧ (200 < length (trim o))%nat)
    ∧ ∀ j o', (j < n - 1)%nat →
        filter_Boolean (fd_options formData) !! j = Some o' →
        trim o' ≠ [] ∧ (length (trim o') ≤ 200)%nat.
Proof.
  unfold validate.
  generalize (filter_Boolean (fd_options formData)) as opts. intros opts.
  destruct (fd_question formData) as [q|]; [|by intros [= <-] [|]].
  do 4 (case_match; [by intros [= <-] [|]|]).
  destruct (check_options 0 opts) as [e'|] eqn:Hcheck;
    [|case_match; [by intros [= <-] [|]|done]].
  intros [= <-] He.
  destruct (check_options_first 0 opts e' Hcheck) as (k & o & Hk & Hbad & Hgood).
  assert (n = S k) as -> by (destruct Hbad as [[-> _]|[-> _]], He; simplify_eq; lia).
  exists o. simpl. rewrite Nat.sub_0_r. split_and!; [lia|done| | |done].
  - intros ->. by destruct Hbad as [[_ ?]|[[=] _]].
  - intros ->. by destruct Hbad as [[[=] _]|[_ ?]].
Qed.

Lemma option_error_names_first_witness :
  ∃ o, (1 ≤ 2)%nat
    ∧ filter_Boolean [[]; js "A"; js " "; js "B"] !! 1%nat = Some o
    ∧ trim o = [].
Proof.
  destruct (option_error_names_first
              (mkFormData (Some (js "Q")) [[]; js "A"; js " "; js "B"])
              (OptionEmpty 2) 2 eq_refl (or_introl eq_refl))
    as (o & Hn & Ho & He & _).
  exists o. split_and!; [exact Hn|exact Ho|exact (He eq_refl)].
Defined.

(** ** Requests without an identity *)

(** X14. Without a signed-in user no poll is created, changed or deleted:
    [deletePoll] answers "Authentication required" whatever the provider
    reported, while [createPoll] and [updatePoll] first validate the form,
    then pass on the provider's error message if there is one and otherwise
    answer their login message; the store is left as it was. *)
Theorem mutations_need_identity (env : Env) (db : Store) (id : PollId)
    (formData : FormData) :
  user env = None →
  deletePoll env db id = (Some AuthenticationRequired, db)
  ∧ createPoll env db formData
    = (Some match validate formData, userError env with
            | inl e, _ => e
            | inr _, Some msg => AuthMessage msg
            | inr _, None => LoginRequiredCreate
            end, db)
  ∧ (∀ upd, upd = updatePoll ∨ upd = SecondCopy.updatePoll →
       upd env db id formData
       = (Some match validate formData, userError env with
               | inl e, _ => e
               | inr _, Some msg => AuthMessage msg
               | inr _, None => LoginRequiredUpdate
               end, db)).
Proof.
  intros Hu. split_and!.
  - unfold deletePoll. rewrite Hu. by destruct (userError env).
  - unfold createPoll. rewrite Hu.
    by destruct (validate formData) as [e|[q o]], (userError env).
  - intros upd [->| ->]; unfold updatePoll, SecondCopy.updatePoll, updatePoll_with;
      rewrite Hu; by destruct (validate formData) as [e|[q o]], (userError env).
Qed.

Lemma mutations_need_identity_witness :
  deletePoll anonymous one_poll "0" = (Some AuthenticationRequired, one_poll)
  ∧ createPoll anonymous one_poll pick_one = (Some LoginRequiredCreate, one_poll).
Proof.
  destruct (mutations_need_identity anonymous one_poll "0" pick_one eq_refl)
    as (Hd & Hc & _).
  split; [exact Hd|exact Hc].
Defined.

(** ** The authentication context *)

Lemma auth_run_unmounted (events : list AuthEvent) (st : AuthState) :
  mounted st = false → auth_run events st = st.
Proof.
  revert st. induction events as [|ev events IH]; intros st Hm; [done|].
  simpl. destruct ev as [u e|s|]; simpl.
  - rewrite Hm. by apply IH.
  - rewrite Hm. by apply IH.
  - rewrite IH by done. destruct st. simpl in *. by subst.
Qed.

Lemma auth_run_loaded (events : list AuthEvent) (st : AuthState) :
  loading st = false → loading (auth_run events st) = false.
Proof.
  revert st. induction events as [|ev events IH]; intros st Hl; [done|].
  simpl. apply IH. destruct ev as [u e|s|]; simpl; by destruct (mounted st).
Qed.

(** X15. In the authentication context, whenever a session is exposed the
    exposed user is that session's user, after any sequence of provider
    answers, authentication events and unmounting. *)
Theorem auth_user_of_session (events : list AuthEvent) (s : Session) :
  ctx_session (auth_run events initial_auth) = Some s →
  ctx_user (auth_run events initial_auth) = Some (session_user s).
Proof.
  assert (∀ st, (∀ s, ctx_session st = Some s → ctx_user st = Some (session_user s)) →
            ∀ s, ctx_session (auth_run events st) = Some s →
                 ctx_user (auth_run events st) = Some (session_user s)) as Hinv.
  { induction events as [|ev events IH]; intros st Hst; [done|].
    simpl. apply IH. destruct ev as [u e|[s'|]|]; simpl;
      destruct (mounted st); simpl; try done.
    by intros ? [= <-]. }
  apply Hinv. done.
Qed.

Lemma auth_user_of_session_witness :
  ctx_user (auth_run [GetUserResolved None None;
                      AuthStateChange (Some (mkSession "alice" 9))] initial_auth)
  = Some "alice".
Proof.
  apply (auth_user_of_session
           [GetUserResolved None None; AuthStateChange (Some (mkSession "alice" 9))]
           (mkSession "alice" 9)).
  reflexivity.
Defined.

(** X16. In the authentication context [loading] is cleared by the answer
    to [getUser] and by nothing else: after a sequence of events it is
    false exactly when an answer arrived before any unmounting;
    authentication events alone leave it set, and once the provider is
    unmounted no event changes the exposed state. *)
Theorem auth_loading_until_answer (events : list AuthEvent) :
  (loading (auth_run events initial_auth) = false
   ↔ ∃ pre u e post, events = pre ++ GetUserResolved u e :: post ∧ Unmount ∉ pre)
  ∧ ∀ more, Unmount ∈ events →
      auth_run (events ++ more) initial_auth = auth_run events initial_auth.
Proof.
  split.
  - assert (∀ st, mounted st = true → loading st = true →
              (loading (auth_run events st) = false
               ↔ ∃ pre u e post,
                   events = pre ++ GetUserResolved u e :: post ∧ Unmount ∉ pre))
      as Hgen; [|by apply Hgen].
    induction events as [|ev events IH]; intros st Hm Hl.
    { simpl. rewrite Hl. split; [done|]. by intros ([|??] & ? & ? & ? & ? & _). }
    simpl. destruct ev as [u e|s|]; simpl; rewrite ?Hm.
    + split; [intros _|intros _; by apply auth_run_loaded].
      exists [], u, e, events. split; [done|]. apply not_elem_of_nil.
    + rewrite IH by (simpl; done). split.
      * intros (pre & u & e & post & -> & Hpre).
        exists (AuthStateChange s :: pre), u, e, post. split; [done|].
        apply not_elem_of_cons. done.
      * intros ([|ev pre] & u & e & post & Heq & Hpre); [done|].
        injection Heq as <- ->. apply not_elem_of_cons in Hpre as [_ Hpre].
        by exists pre, u, e, post.
    + rewrite auth_run_unmounted by done. simpl. rewrite Hl. split; [done|].
      intros ([|ev pre] & u & e & post & Heq & Hpre); [done|].
      injection Heq as <- ->. destruct Hpre. left.
  - intros more Hin. unfold auth_run. rewrite foldl_app.
    apply auth_run_unmounted.
    assert (∀ st, (mounted st = false ∨ Unmount ∈ events) →
              mounted (auth_run events st) = false) as Hgen;
      [|apply Hgen; by right].
    clear Hin. induction events as [|ev events IH]; intros st [Hm|Hin].
    + done.
    + by apply elem_of_nil in Hin.
    + by rewrite auth_run_unmounted.
    + simpl. apply IH. apply elem_of_cons in Hin as [<-|Hin]; [by left|by right].
Qed.

Lemma auth_loading_until_answer_witness :
  auth_run ([AuthStateChange None; Unmount] ++ [GetUserResolved (Some "bob") None])
    initial_auth
  = auth_run [AuthStateChange None; Unmount] initial_auth.
Proof.
  apply (auth_loading_until_answer [AuthStateChange None; Unmount]).
  right. left.
Defined.

(** ** Regular expressions *)

Lemma match_many_sound (k : jsstring → option nat) (Q : jsstring → jsstring → Prop)
    (p : N → bool) (s : jsstring) (n : nat) :
  (∀ s n, k s = Some n → (n ≤ length s)%nat ∧ Q (take n s) (drop n s)) →
  match_many k p s = Some n →
  (n ≤ length s)%nat
  ∧ ∃ cs m', take n s = cs ++ m' ∧ cs ≠ [] ∧ Forall (λ c, p c = true) cs
             ∧ Q m' (drop n s).
Proof.
  intros Hk. revert n. induction s as [|c s IH]; intros n; simpl; [done|].
  destruct (p c) eqn:Hc; [|done].
  destruct (match_many k p s) as [n'|] eqn:Hmany.
  - intros [= <-]. destruct (IH n' eq_refl) as (Hle & cs & m' & Ht & Hne & Hcs & HQ).
    split; [lia|]. exists (c :: cs), m'. simpl. rewrite Ht.
    split_and!; [done|done| |done]. by constructor.
  - destruct (k s) as [n'|] eqn:Hks; [|done]. simpl. intros [= <-].
    destruct (Hk s n' Hks) as [Hle HQ]. split; [lia|].
    exists [c], (take n' s). simpl. split_and!; [done|done| |done].
    by repeat constructor.
Qed.

Lemma match_here_sound (r : list Atom) (s : jsstring) (n : nat) :
  match_here r s = Some n →
  (n ≤ length s)%nat ∧ matches r (take n s) (drop n s).
Proof.
  revert s n. induction r as [|[p|p|] r IH]; intros s n; simpl.
  - intros [= <-]. split; [lia|done].
  - destruct s as [|c s]; [done|]. destruct (p c) eqn:Hc; [|done].
    destruct (match_here r s) as [n'|] eqn:Hr; [|done]. simpl. intros [= <-].
    destruct (IH s n' Hr) as [Hle Hm]. split; [simpl; lia|].
    exists c, (take n' s). done.
  - intros Hmany. by apply (match_many_sound (match_here r) (matches r)).
  - destruct s as [|c s]; [|done]. intros Hr.
    destruct (IH [] n Hr) as [Hle Hm]. simpl in Hle.
    assert (n = 0%nat) as -> by lia. done.
Qed.

Lemma match_many_complete (k : jsstring → option nat) (p : N → bool)
    (cs s : jsstring) :
  cs ≠ [] → Forall (λ c, p c = true) cs → is_Some (k s) →
  is_Some (match_many k p (cs ++ s)).
Proof.
  intros Hne Hcs Hk. induction Hcs as [|c cs Hc Hcs IH]; [done|].
  assert (∀ t, match_many k p (c :: t)
               = match match_many k p t with
                 | Some n => Some (S n)
                 | None => S <$> k t
                 end) as Hcons by (intros t; simpl; by rewrite Hc).
  change ((c :: cs) ++ s) with (c :: cs ++ s). rewrite Hcons.
  destruct cs as [|c' cs].
  - simpl. destruct (match_many k p s); [done|]. destruct Hk as [n ->]. done.
  - assert (is_Some (match_many k p ((c' :: cs) ++ s))) as [n ->] by by apply IH.
    done.
Qed.

Lemma match_here_complete (r : list Atom) (m rest : jsstring) :
  matches r m rest → is_Some (match_here r (m ++ rest)).
Proof.
  revert m. induction r as [|[p|p|] r IH]; intros m; simpl.
  - done.
  - intros (c & m' & -> & Hc & Hm). simpl. rewrite Hc.
    destruct (IH m' Hm) as [n ->]. done.
  - intros (cs & m' & -> & Hne & Hcs & Hm). rewrite <- app_assoc.
    apply match_many_complete; [done..|]. by apply IH.
  - intros (-> & -> & Hm). simpl. by apply (IH []).
Qed.

Lemma test_anchored_matches (r : list Atom) (s : jsstring) :
  test_anchored r s = true ↔ ∃ m rest, s = m ++ rest ∧ matches r m rest.
Proof.
  unfold test_anchored. rewrite bool_decide_eq_true. split.
  - intros [n Hn]. apply match_here_sound in Hn as [_ Hm].
    exists (take n s), (drop n s). by rewrite take_drop.
  - intros (m & rest & -> & Hm). by apply match_here_complete.
Qed.

Lemma match_here_ones (ps : list (N → bool)) (s : jsstring) :
  is_Some (match_here ((One <$> ps) ++ [AtEnd]) s)
  ↔ Forall2 (λ p c, p c = true) ps s.
Proof.
  revert s. induction ps as [|p ps IH]; intros s; simpl.
  - destruct s as [|c s]; split; intros H; try done;
      try (by destruct H as [? [=]]); by inversion H.
  - destruct s as [|c s].
    + split; intros H; [by destruct H as [? [=]]|by inversion H].
    + destruct (p c) eqn:Hc.
      * rewrite Forall2_cons, <- IH. rewrite fmap_is_Some. tauto.
      * split; intros H; [by destruct H as [? [=]]|].
        apply Forall2_cons in H as [H _]. congruence.
Qed.

(** ** [validateUUID] and [validateEmail] *)

Lemma uuid_classes_lookup (i : nat) :
  (i < 36)%nat →
  uuid_classes !! i
  = Some (if bool_decide (i ∈ [8; 13; 18; 23]%nat) then chr 45 else is_hex).
Proof.
  intros Hi. do 36 (destruct i as [|i]; [reflexivity|]). lia.
Qed.

(** X17. [validateUUID] accepts exactly the strings of 36 code units that
    have a hyphen at the positions 8, 13, 18 and 23 and a hexadecimal
    digit, in either case, everywhere else. *)
Theorem validateUUID_shape (uuid : jsstring) :
  validateUUID uuid = true
  ↔ length uuid = 36%nat
    ∧ ∀ i c, uuid !! i = Some c →
        if bool_decide (i ∈ [8; 13; 18; 23]%nat) then c = 45%N else is_hex c = true.
Proof.
  unfold validateUUID, test_anchored, uuid_re.
  rewrite bool_decide_eq_true, match_here_ones, Forall2_same_length_lookup.
  change (length uuid_classes) with 36%nat. split.
  - intros [Hlen Hall]. split; [done|]. intros i c Hc.
    assert (i < 36)%nat as Hi by (apply lookup_lt_Some in Hc; lia).
    specialize (Hall i _ c (uuid_classes_lookup i Hi) Hc). simpl in Hall.
    case_bool_decide; [|done]. by apply N.eqb_eq in Hall.
  - intros [Hlen Hall]. split; [done|]. intros i p c Hp Hc.
    assert (i < 36)%nat as Hi by (apply lookup_lt_Some in Hc; lia).
    rewrite uuid_classes_lookup in Hp by done. injection Hp as <-.
    specialize (Hall i c Hc). case_bool_decide; [|done]. by apply N.eqb_eq.
Qed.

(** X18. [validateEmail] accepts exactly the strings of the form
    [x@y.z] in which [x], [y] and [z] are not empty and hold neither a
    white-space character nor an [@]. *)
Theorem validateEmail_shape (email : jsstring) :
  validateEmail email = true
  ↔ ∃ x y z, email = x ++ [64%N] ++ y ++ [46%N] ++ z
      ∧ x ≠ [] ∧ y ≠ [] ∧ z ≠ []
      ∧ Forall (λ c, is_ws c = false ∧ c ≠ 64%N) (x ++ y ++ z).
Proof.
  assert (∀ l, Forall (λ c, not_space_at c = true) l
               ↔ Forall (λ c, is_ws c = false ∧ c ≠ 64%N) l) as Hclass.
  { intros l. apply Forall_proper; [|done]. intros c. unfold not_space_at.
    rewrite negb_true_iff, orb_false_iff, N.eqb_neq. done. }
  unfold validateEmail. rewrite test_anchored_matches. split.
  - intros (m & rest & -> & Hm). simpl in Hm.
    destruct Hm as (x & m1 & -> & Hx & Hxs & c1 & m2 & -> & Hc1
                    & y & m3 & -> & Hy & Hys & c2 & m4 & -> & Hc2
                    & z & m5 & -> & Hz & Hzs & -> & -> & _).
    apply N.eqb_eq in Hc1 as ->. apply N.eqb_eq in Hc2 as ->.
    exists x, y, z. rewrite !app_nil_r. split_and!; try done.
    rewrite !Forall_app, <- !Hclass. done.
  - intros (x & y & z & -> & Hx & Hy & Hz & Hall).
    rewrite !Forall_app, <- !Hclass in Hall. destruct Hall as (Hxs & Hys & Hzs).
    exists (x ++ [64%N] ++ y ++ [46%N] ++ z), []. split; [by rewrite app_nil_r|].
    simpl. exists x, (64%N :: y ++ 46%N :: z). split_and!; try done.
    exists 64%N, (y ++ 46%N :: z). split_and!; try done.
    exists y, (46%N :: z). split_and!; try done.
    exists 46%N, z. split_and!; try done.
    exists z, []. by rewrite app_nil_r.
Qed.

(** ** [sanitizeInput] *)

Lemma replace_go_sublist (r : list Atom) (skip : nat) (s : jsstring) :
  replace_go r skip s `sublist_of` s.
Proof.
  revert skip. induction s as [|c s IH]; intros skip; simpl; [done|].
  destruct skip as [|k]; [|by apply sublist_cons].
  destruct (match_here r (c :: s)) as [[|n]|];
    [by apply sublist_skip|by apply sublist_cons|by apply sublist_skip].
Qed.

Lemma sublist_Forall_keep {A} (P : A → Prop) (l k : list A) :
  l `sublist_of` k → Forall P k → Forall P l.
Proof.
  induction 1 as [|x l k Hs IH|x l k Hs IH]; intros Hk; [done| |].
  - apply Forall_cons in Hk as [Hx Hk]. constructor; auto.
  - apply Forall_cons in Hk as [_ Hk]. auto.
Qed.

Lemma replace_lt_gt_clean (skip : nat) (s : jsstring) :
  Forall (λ c, is_lt_gt c = false) (replace_go lt_gt_re skip s).
Proof.
  revert skip. induction s as [|c s IH]; intros skip; simpl; [constructor|].
  destruct skip as [|k]; [|apply IH].
  destruct (is_lt_gt c) eqn:Hc; simpl; [apply IH|]. by constructor.
Qed.

Lemma replace_go_no_first (p : N → bool) (r : list Atom) (s : jsstring) :
  Forall (λ c, p c = false) s → replace_go (One p :: r) 0 s = s.
Proof.
  induction 1 as [|c s Hc Hs IH]; [done|].
  cbn [replace_go match_here]. rewrite Hc. by rewrite IH.
Qed.

(** X19. [sanitizeInput] only removes characters (the result is the input
    with some characters left out, in the same order); the result holds
    neither [<] nor [>], and neither starts nor ends with white space. *)
Theorem sanitizeInput_removes (input : jsstring) :
  sanitizeInput input `sublist_of` input
  ∧ Forall (λ c, c ≠ 60%N ∧ c ≠ 62%N) (sanitizeInput input)
  ∧ (∀ c, head (sanitizeInput input) = Some c ∨ last (sanitizeInput input) = Some c →
          is_ws c = false).
Proof.
  unfold sanitizeInput, replace_all.
  set (s1 := replace_go lt_gt_re 0 input).
  set (s2 := replace_go javascript_re 0 s1).
  set (s3 := replace_go on_handler_re 0 s2).
  assert (trim s3 `sublist_of` s1) as Hsub.
  { etrans; [apply trim_sublist|]. etrans; apply replace_go_sublist. }
  split_and!.
  - etrans; [exact Hsub|apply replace_go_sublist].
  - eapply Forall_impl;
      [apply (sublist_Forall_keep _ _ _ Hsub), replace_lt_gt_clean|].
    intros c Hc. unfold is_lt_gt in Hc. apply orb_false_iff in Hc as [H1 H2].
    by apply N.eqb_neq in H1, H2.
  - intros c [Hc|Hc]; [by eapply trim_head|by eapply trim_last].
Qed.

Lemma uuid_char_plain (c : N) :
  is_hex c = true ∨ c = 45%N →
  is_lt_gt c = false ∧ chr_i 106 c = false ∧ chr_i 111 c = false ∧ is_ws c = false.
Proof.
  intros Hc.
  assert ((48 ≤ c ≤ 57) ∨ (97 ≤ c ≤ 102) ∨ (65 ≤ c ≤ 70) ∨ c = 45)%N as Hrange.
  { destruct Hc as [Hc| ->]; [|auto]. unfold is_hex, is_digit in Hc.
    rewrite !orb_true_iff, !andb_true_iff, !N.leb_le in Hc. tauto. }
  clear Hc. unfold is_lt_gt, chr_i, upper, is_ws.
  change (if (97 <=? 106)%N && (106 <=? 122)%N then (106 - 32)%N else 106%N)
    with 74%N.
  change (if (97 <=? 111)%N && (111 <=? 122)%N then (111 - 32)%N else 111%N)
    with 79%N.
  destruct ((97 <=? c)%N && (c <=? 122)%N) eqn:Hlow.
  - apply andb_true_iff in Hlow as [H1 H2]. apply N.leb_le in H1, H2.
    rewrite !orb_false_iff, !andb_false_iff, !N.eqb_neq, !N.leb_gt. lia.
  - apply andb_false_iff in Hlow. rewrite !N.leb_gt in Hlow.
    rewrite !orb_false_iff, !andb_false_iff, !N.eqb_neq, !N.leb_gt. lia.
Qed.

Lemma validateUUID_chars (uuid : jsstring) :
  validateUUID uuid = true → Forall (λ c, is_hex c = true ∨ c = 45%N) uuid.
Proof.
  unfold validateUUID, test_anchored, uuid_re.
  rewrite bool_decide_eq_true, match_here_ones, Forall2_same_length_lookup.
  change (length uuid_classes) with 36%nat. intros [Hlen Hall].
  apply Forall_lookup. intros i c Hc.
  assert (i < 36)%nat as Hi by (apply lookup_lt_Some in Hc; lia).
  specialize (Hall i _ c (uuid_classes_lookup i Hi) Hc). simpl in Hall.
  case_bool_decide; [|by left]. right. by apply N.eqb_eq in Hall.
Qed.

(** X20. A string that [validateUUID] accepts passes [sanitizeInput]
    unchanged. *)
Theorem sanitizeInput_keeps_uuid (uuid : jsstring) :
  validateUUID uuid = true → sanitizeInput uuid = uuid.
Proof.
  intros Hv. pose proof (validateUUID_chars uuid Hv) as Hchars.
  assert (∀ P : N → Prop,
            (∀ c, is_hex c = true ∨ c = 45%N → P c) → Forall P uuid) as Hall.
  { intros P HP. eapply Forall_impl; [exact Hchars|exact HP]. }
  unfold sanitizeInput, replace_all.
  unfold lt_gt_re. rewrite replace_go_no_first
    by (apply Hall; intros c Hc; by apply uuid_char_plain).
  change javascript_re with (One (chr_i 106) :: tail javascript_re).
  rewrite replace_go_no_first
    by (apply Hall; intros c Hc; by apply uuid_char_plain).
  unfold on_handler_re. rewrite replace_go_no_first
    by (apply Hall; intros c Hc; by apply uuid_char_plain).
  assert (∀ c, c ∈ uuid → is_ws c = false) as Hin.
  { apply Forall_forall, Hall. intros c Hc. by apply uuid_char_plain. }
  apply trim_fixed; intros c Hc; apply Hin.
  - destruct uuid as [|d uuid']; [done|]. injection Hc as ->. left.
  - by apply last_Some_elem_of.
Qed.

Lemma sanitizeInput_keeps_uuid_witness :
  sanitizeInput (js "123e4567-e89b-12d3-A456-426614174000")
  = js "123e4567-e89b-12d3-A456-426614174000".
Proof.
  apply (sanitizeInput_keeps_uuid (js "123e4567-e89b-12d3-A456-426614174000")).
  reflexivity.
Defined.

(** X21. [sanitizeInput] makes one pass per pattern, so removing a match
    can bring a new one together: there are inputs whose result still holds
    [javascript:], and inputs on which a second application removes more
    than the first. *)
Theorem sanitizeInput_one_pass :
  (∃ input, occurs_in (js "javascript:") (sanitizeInput input))
  ∧ (∃ input, sanitizeInput (sanitizeInput input) ≠ sanitizeInput input)
  ∧ sanitizeInput (js "javajavascript:script:alert(1)") = js "javascript:alert(1)"
  ∧ sanitizeInput (js "javaonx=script:alert(1)") = js "javascript:alert(1)".
Proof.
  split_and!.
  - exists (js "javajavascript:script:alert(1)"), [], (js "alert(1)"). reflexivity.
  - exists (js "javajavascript:script:alert(1)"). vm_compute. discriminate.
  - reflexivity.
  - reflexivity.
Qed.

(** ** Anonymous votes *)

(** X22. Anonymous votes are not limited: on a stored poll, any number of
    anonymous [submitVote] calls with indices of the poll, on a store that
    takes the inserts, all succeed; each adds its row, in order, and
    [totalVotes] of the poll grows by their number. *)
Theorem anonymous_votes_all_stored (env : Env) (db : Store) (row : Poll)
    (indices : list Z) :
  polls_pkey db → row ∈ polls db → user env = None → storeError env = None →
  Forall (λ i, 0 ≤ i < Z.of_nat (length (options row))) indices →
  let db' := run ((λ i, (env, SubmitVote (poll_id row) i)) <$> indices) db in
  votes db' = votes db ++ (mkVote (poll_id row) None <$> indices)
  ∧ polls db' = polls db
  ∧ totalVotes (getVoteCounts db' (poll_id row))
    = (totalVotes (getVoteCounts db (poll_id row)) + length indices)%nat.
Proof.
  intros Hpk Hrow Hu Hse Hidx. simpl.
  assert (votes (run ((λ i, (env, SubmitVote (poll_id row) i)) <$> indices) db)
          = votes db ++ (mkVote (poll_id row) None <$> indices)
          ∧ polls (run ((λ i, (env, SubmitVote (poll_id row) i)) <$> indices) db)
            = polls db) as [Hvotes Hpolls].
  { revert db Hpk Hrow. induction Hidx as [|i indices Hi Hidx IH]; intros db Hpk Hrow.
    - simpl. by rewrite app_nil_r.
    - rewrite fmap_cons.
      change (run (?ec :: ?h) db) with (run h (perform ec.1 ec.2 db).2).
      cbn [perform fst snd]. rewrite submitVote_in_range, Hu, Hse by done.
      cbn [snd].
      destruct (IH (insert_vote (mkVote (poll_id row) None i) db)) as [Hv Hp];
        [done..|].
      rewrite Hv, Hp. simpl. by rewrite <- app_assoc. }
  split_and!; [done..|].
  unfold getVoteCounts. simpl. rewrite Hvotes, filter_app, length_app. f_equal.
  clear. induction indices as [|i indices IH]; [done|].
  rewrite fmap_cons, filter_cons_True by done. simpl. by rewrite IH.
Qed.

Lemma anonymous_votes_all_stored_witness :
  votes (run ((λ i, (anonymous, SubmitVote "0" i)) <$> [0; 1; 1; 0]) one_poll)
  = mkVote "0" None <$> [0; 1; 1; 0].
Proof.
  assert (polls_pkey one_poll) as Hpk by apply NoDup_singleton.
  assert (the_poll ∈ polls one_poll) as Hrow by left.
  destruct (anonymous_votes_all_stored anonymous one_poll the_poll [0; 1; 1; 0]
              Hpk Hrow eq_refl eq_refl) as (H & _ & _).
  - repeat constructor; simpl; lia.
  - exact H.
Defined.

(** ** The set of options *)



(** ** Further instances on the example stores *)

Lemma stored_votes_well_formed_witness :
  "0" ∈ poll_id <$> polls (run alice_voted empty_store)
  ∧ 0 ≤ option_index (mkVote "0" (Some "alice") 0) < 10.
Proof.
  destruct (stored_votes_well_formed alice_voted) as (_ & H & _).
  apply (H (mkVote "0" (Some "alice") 0)). vm_compute. left.
Defined.

Lemma validateUUID_shape_witness :
  length (js "123e4567-e89b-12d3-a456-426614174000") = 36%nat.
Proof.
  destruct (validateUUID_shape (js "123e4567-e89b-12d3-a456-426614174000"))
    as [H _].
  destruct (H eq_refl) as [Hlen _]. exact Hlen.
Defined.

Lemma validateEmail_shape_witness :
  validateEmail (js "ann@example.org") = true.
Proof.
  apply (validateEmail_shape (js "ann@example.org")).
  exists (js "ann"), (js "example"), (js "org").
  split_and!; try done.
  apply Forall_forall. intros c Hc. apply list_elem_of_In in Hc. simpl in Hc.
  repeat (destruct Hc as [<-|Hc]; [by vm_compute|]). destruct Hc.
Defined.

Lemma sanitizeInput_removes_witness :
  sanitizeInput (js " <b>bold</b> ") `sublist_of` js " <b>bold</b> "
  ∧ is_ws 98 = false.
Proof.
  destruct (sanitizeInput_removes (js " <b>bold</b> ")) as (Hsub & _ & H).
  split; [exact Hsub|]. apply H. left. reflexivity.
Defined.

